(** * A shallow embedding of the Go package [compare] (frk/compare)

    The package compares two Go values through runtime reflection and
    collects a list of typed mismatch records.  This development embeds

    - the string differ [sdiff] (and the UTF-8 decoder it calls),
    - the reflection values the comparator walks: types, values, a heap of
      allocations (variables and backing arrays, maps, channels), addresses
      and the read-only flag of values reached through unexported fields,
    - the comparator [Config.compare] and its helpers, in a state monad that
      threads the heap (channels are drained), the error list, the visited
      set of the cycle guard and the pending "+" flag, and that can end in a
      Go panic, in a goroutine blocked forever, or out of fuel (the Go
      recursion is not structural: cyclic maps recurse without bound). *)

From Stdlib Require Import String Ascii List ZArith Bool Lia Permutation.
Import ListNotations.
Set Warnings "-register-all".

(* ------------------------------------------------------------------ *)
(** ** Strings as byte sequences *)

Module Bytes.

(** [s[i]]: the i-th byte of a Go string. *)
Definition byte_at (s : string) (i : nat) : Z :=
  match String.get i s with
  | Some c => Z.of_nat (nat_of_ascii c)
  | None => 0
  end.

(** [s[i:]] *)
Definition suffix (s : string) (i : nat) : string :=
  String.substring i (String.length s - i) s.

End Bytes.

(* ------------------------------------------------------------------ *)
(** ** unicode/utf8.DecodeRuneInString *)

Module UTF8.
Local Open Scope Z_scope.

Definition RuneError : Z := 65533.   (* U+FFFD *)

(** Accept range of the second byte and total size, from the [first]
    table of unicode/utf8: [None] for ASCII and invalid leading bytes. *)
Definition lead (s0 : Z) : option (Z * Z * Z) :=
  if (s0 <? 194) then None                          (* ASCII or xx *)
  else if (s0 <=? 223) then Some (128, 191, 2)
  else if (s0 =? 224) then Some (160, 191, 3)
  else if (s0 =? 237) then Some (128, 159, 3)
  else if (s0 <=? 239) then Some (128, 191, 3)
  else if (s0 =? 240) then Some (144, 191, 4)
  else if (s0 <=? 243) then Some (128, 191, 4)
  else if (s0 =? 244) then Some (128, 143, 4)
  else None.

Definition is_cont (b : Z) : bool := (128 <=? b) && (b <=? 191).

(** [DecodeRuneInString(s)]: the rune and its width in bytes. *)
Definition DecodeRuneInString (s : string) : Z * Z :=
  let n := Z.of_nat (String.length s) in
  if n <? 1 then (RuneError, 0) else
  let s0 := Bytes.byte_at s 0 in
  match lead s0 with
  | None => if s0 <? 128 then (s0, 1) else (RuneError, 1)
  | Some (lo, hi, sz) =>
      if n <? sz then (RuneError, 1) else
      let s1 := Bytes.byte_at s 1 in
      if (s1 <? lo) || (hi <? s1) then (RuneError, 1) else
      if sz <=? 2 then
        (Z.lor (Z.shiftl (Z.land s0 31) 6) (Z.land s1 63), 2) else
      let s2 := Bytes.byte_at s 2 in
      if negb (is_cont s2) then (RuneError, 1) else
      if sz <=? 3 then
        (Z.lor (Z.lor (Z.shiftl (Z.land s0 15) 12) (Z.shiftl (Z.land s1 63) 6))
               (Z.land s2 63), 3) else
      let s3 := Bytes.byte_at s 3 in
      if negb (is_cont s3) then (RuneError, 1) else
      (Z.lor (Z.lor (Z.lor (Z.shiftl (Z.land s0 7) 18) (Z.shiftl (Z.land s1 63) 12))
                    (Z.shiftl (Z.land s2 63) 6)) (Z.land s3 63), 4)
  end.

End UTF8.

(* ------------------------------------------------------------------ *)
(** ** The string differ (string.go: [diff], [sdiff]) *)

Module StringDiff.
Local Open Scope Z_scope.

Record diff := mkdiff { start : Z; end_ : Z }.

(** The scanning loop of [sdiff], from index [i] with [k] iterations left;
    [start] and [end] are Go ints, [-1] meaning "not found". *)
Fixpoint scan (a b : string) (i k : nat) (start end_ : Z) : Z * Z :=
  match k with
  | O => (start, end_)
  | S k' =>
      let ai := Bytes.byte_at a i in
      let bi := Bytes.byte_at b i in
      let '(start, end_) :=
        if (start =? -1) && negb (ai =? bi)
        then (Z.of_nat i, Z.of_nat i + 1) else (start, end_) in
      if (start >? -1) && (ai =? bi) then (start, Z.of_nat i)   (* break *)
      else scan a b (S i) k' start end_
  end.

(** [for r == utf8.RuneError && start > 0 { start -= 1; r, w = ... }],
    with the rune and width of the current [start]; [k] bounds the loop
    (it runs at most [start] times). *)
Fixpoint back_up (a : string) (k : nat) (start r w : Z) : Z * Z :=
  match k with
  | O => (start, w)
  | S k' =>
      if (r =? UTF8.RuneError) && (start >? 0) then
        let start := start - 1 in
        let '(r, w) := UTF8.DecodeRuneInString (Bytes.suffix a (Z.to_nat start)) in
        back_up a k' start r w
      else (start, w)
  end.

(** [sdiff(a, b)]; [None] is the nil [*diff]. *)
Definition sdiff (a b : string) : option diff :=
  if String.eqb a b then None else
  let length := Nat.min (String.length a) (String.length b) in
  let '(start, end_) := scan a b 0 length (-1) (-1) in
  if start =? -1 then Some (mkdiff (Z.of_nat length) (Z.of_nat (String.length a)))
  else
    let '(r, w) := UTF8.DecodeRuneInString (Bytes.suffix a (Z.to_nat start)) in
    if (w >? 1) || (r =? UTF8.RuneError) then
      let '(start, w) := back_up a (Z.to_nat start) start r w in
      let end_ := if start + w >? end_ then start + w else end_ in
      Some (mkdiff start end_)
    else Some (mkdiff start end_).

End StringDiff.

(* ------------------------------------------------------------------ *)
(** ** Go types and values as [reflect] sees them *)

Module Go.

Inductive chandir := BothDir | SendDir | RecvDir.

(** Types.  Struct types are named ([pkg.Name]); their declared fields
    come from the program's declarations, a parameter of the comparator. *)
Inductive ty :=
| TBool | TInt | TUint | TFloat64 | TString
| TArray (n : nat) (elem : ty)
| TSlice (elem : ty)
| TIface                                  (* interface{} *)
| TPtr (elem : ty)
| TStruct (name : string)
| TMap (key elem : ty)
| TFunc (sig : nat)
| TChan (dir : chandir) (elem : ty).

Definition ty_eq_dec (x y : ty) : {x = y} + {x <> y}.
Proof.
  decide equality;
    first [apply string_dec | apply Nat.eq_dec | decide equality].
Defined.

Definition ty_eqb (x y : ty) : bool := if ty_eq_dec x y then true else false.

(** [reflect.Kind] *)
Inductive kind :=
| KBool | KInt | KUint | KFloat64 | KString | KArray | KSlice | KInterface
| KPtr | KStruct | KMap | KFunc | KChan.

Definition kind_of (t : ty) : kind :=
  match t with
  | TBool => KBool | TInt => KInt | TUint => KUint | TFloat64 => KFloat64
  | TString => KString | TArray _ _ => KArray | TSlice _ => KSlice
  | TIface => KInterface | TPtr _ => KPtr | TStruct _ => KStruct
  | TMap _ _ => KMap | TFunc _ => KFunc | TChan _ _ => KChan
  end.

Definition elem_ty (t : ty) : ty :=
  match t with
  | TArray _ e | TSlice e | TPtr e | TMap _ e | TChan _ e => e
  | _ => t
  end.

Definition key_ty (t : ty) : ty :=
  match t with TMap k _ => k | _ => t end.

(** A declared struct field: name, tag (key/value pairs) and type. *)
Record field := mkfield { fname : string; ftag : list (string * string); fty : ty }.

(** [reflect.StructTag.Get] *)
Definition tag_get (tag : list (string * string)) (key : string) : string :=
  match find (fun kv => String.eqb (fst kv) key) tag with
  | Some (_, v) => v
  | None => ""%string
  end.

(** A field is exported when its name starts with an upper-case letter. *)
Definition exported (name : string) : bool :=
  match name with
  | String c _ => (65 <=? nat_of_ascii c) && (nat_of_ascii c <=? 90)
  | EmptyString => false
  end.

(** float64 values, by their comparison behaviour: NaN equals nothing. *)
Inductive float64 := NaN | Num (z : Z).

(** Storage locations: an allocation and the path of element / field
    indices inside it.  Their order stands for the order of addresses. *)
Definition loc := (nat * list nat)%type.

Inductive val :=
| VBool (b : bool)
| VInt (z : Z)
| VUint (z : Z)
| VFloat (f : float64)
| VString (s : string)
| VArray (xs : list val)                      (* inline array *)
| VSlice (hdr : option (nat * nat * nat))     (* nil, or (array, offset, len) *)
| VIface (dyn : option (ty * val))            (* nil, or dynamic type and value *)
| VPtr (p : option loc)
| VStruct (fs : list val)
| VMap (m : option nat)
| VFunc (code : option nat)
| VChan (c : option nat).

(** Allocations: variables and backing arrays, maps (their entries in
    iteration order) and channels (buffered elements and closedness). *)
Inductive block :=
| BVals (vs : list val)
| BMap (entries : list (val * val))
| BChan (buf : list val) (closed : bool).

Definition heap := list (nat * block).

Definition lookup (h : heap) (a : nat) : option block :=
  match find (fun e => Nat.eqb (fst e) a) h with
  | Some (_, b) => Some b
  | None => None
  end.

Fixpoint update (h : heap) (a : nat) (b : block) : heap :=
  match h with
  | [] => []
  | (a', b') :: h' => if Nat.eqb a' a then (a', b) :: h' else (a', b') :: update h' a b
  end.

(** A [reflect.Value] that is valid: type, data, address when addressable
    ([CanAddr]) and the read-only flag of values obtained through an
    unexported field.  The invalid (zero) [reflect.Value] is [None]. *)
Record rval := RV { rtype : ty; rdata : val; raddr : option loc; rro : bool }.
Definition value := option rval.

(** Path nodes (errors.go) *)
Inductive pathnode :=
| RootNode (t : option ty)
| ArrNode (i : nat)
| ChanNode (i : nat)
| MapNode (key : val)
| StructNode (name : string).

Definition path := list pathnode.

(** [path.add] *)
Definition padd (p : path) (n : pathnode) : path := p ++ [n].

(** The mismatch records of errors.go. *)
Inductive cmperr :=
| ValidityError (got want : value) (p : path)
| TypeError (got want : rval) (p : path)
| NilError (got want : value) (p : path)
| LenError (got want : rval) (p : path)
| FuncError (got want : rval) (p : path)
| ValueError (got want : val) (p : path)
| ZeroError (got want : bool) (p : path)
| StringError (got want : string) (d : option StringDiff.diff) (p : path).

Definition err_path (e : cmperr) : path :=
  match e with
  | ValidityError _ _ p | TypeError _ _ p | NilError _ _ p | LenError _ _ p
  | FuncError _ _ p | ValueError _ _ p | ZeroError _ _ p | StringError _ _ _ p => p
  end.

(** The [visit] key of the cycle guard. *)
Definition visit := (loc * loc * ty)%type.

End Go.

(* ------------------------------------------------------------------ *)
(** ** The [reflect] operations the comparator uses *)

Module Reflect.
Import Go.

Definition opt_eqb {A} (eqb : A -> A -> bool) (x y : option A) : bool :=
  match x, y with
  | Some a, Some b => eqb a b
  | None, None => true
  | _, _ => false
  end.

Definition loc_eqb (l1 l2 : loc) : bool :=
  Nat.eqb (fst l1) (fst l2) && (if list_eq_dec Nat.eq_dec (snd l1) (snd l2) then true else false).

Fixpoint path_ltb (p1 p2 : list nat) : bool :=
  match p1, p2 with
  | [], [] => false
  | [], _ :: _ => true
  | _ :: _, [] => false
  | i :: p1', j :: p2' => (i <? j) || (Nat.eqb i j && path_ltb p1' p2')
  end.

(** [uintptr(l1) < uintptr(l2)] *)
Definition loc_ltb (l1 l2 : loc) : bool :=
  (fst l1 <? fst l2) || (Nat.eqb (fst l1) (fst l2) && path_ltb (snd l1) (snd l2)).

Definition float_eqb (x y : float64) : bool :=
  match x, y with
  | Num a, Num b => Z.eqb a b
  | _, _ => false
  end.

(** Go's [==] on comparable values (map keys, [interface{}] values). *)
Fixpoint go_eq (x y : val) : bool :=
  let fix all (xs ys : list val) : bool :=
    match xs, ys with
    | [], [] => true
    | x :: xs', y :: ys' => go_eq x y && all xs' ys'
    | _, _ => false
    end in
  match x, y with
  | VBool a, VBool b => Bool.eqb a b
  | VInt a, VInt b => Z.eqb a b
  | VUint a, VUint b => Z.eqb a b
  | VFloat a, VFloat b => float_eqb a b
  | VString a, VString b => String.eqb a b
  | VArray xs, VArray ys => all xs ys
  | VStruct xs, VStruct ys => all xs ys
  | VPtr a, VPtr b => opt_eqb loc_eqb a b
  | VChan a, VChan b => opt_eqb Nat.eqb a b
  | VIface a, VIface b =>
      match a, b with
      | None, None => true
      | Some (t, u), Some (t', u') => ty_eqb t t' && go_eq u u'
      | _, _ => false
      end
  | _, _ => false
  end.

(** [Value.IsNil] on the kinds that have it. *)
Definition IsNil (v : val) : bool :=
  match v with
  | VSlice None | VIface None | VPtr None | VMap None | VFunc None | VChan None => true
  | _ => false
  end.

(** [Value.IsZero] *)
Fixpoint IsZero (v : val) : bool :=
  match v with
  | VBool b => negb b
  | VInt z | VUint z => Z.eqb z 0
  | VFloat f => match f with Num z => Z.eqb z 0 | NaN => false end
  | VString s => String.eqb s ""
  | VArray xs | VStruct xs => forallb IsZero xs
  | VSlice _ | VIface _ | VPtr _ | VMap _ | VFunc _ | VChan _ => IsNil v
  end.

(** [Value.Pointer] of slices, maps and pointers (nil gives 0, here [None]). *)
Definition Pointer (v : val) : option loc :=
  match v with
  | VSlice (Some (a, off, _)) => Some (a, [off])
  | VMap (Some m) => Some (m, [])
  | VPtr p => p
  | VChan (Some c) => Some (c, [])
  | VFunc (Some f) => Some (f, [])
  | _ => None
  end.

Definition map_entries (h : heap) (v : val) : list (val * val) :=
  match v with
  | VMap (Some m) => match lookup h m with Some (BMap es) => es | _ => [] end
  | _ => []
  end.

Definition chan_buf (h : heap) (v : val) : list val :=
  match v with
  | VChan (Some c) => match lookup h c with Some (BChan buf _) => buf | _ => [] end
  | _ => []
  end.

(** [Value.Len] *)
Definition Len (h : heap) (r : rval) : nat :=
  match rtype r, rdata r with
  | TArray n _, _ => n
  | _, VSlice (Some (_, _, n)) => n
  | _, VMap (Some _) => length (map_entries h (rdata r))
  | _, VChan (Some _) => length (chan_buf h (rdata r))
  | _, VString s => String.length s
  | _, _ => 0
  end.

Fixpoint read_path (v : val) (ps : list nat) : option val :=
  match ps with
  | [] => Some v
  | i :: ps' =>
      match v with
      | VArray xs | VStruct xs =>
          match nth_error xs i with Some x => read_path x ps' | None => None end
      | _ => None
      end
  end.

(** The value stored at a location. *)
Definition load (h : heap) (l : loc) : option val :=
  match lookup h (fst l), snd l with
  | Some (BVals vs), i :: ps =>
      match nth_error vs i with Some x => read_path x ps | None => None end
  | _, _ => None
  end.

Definition extend (l : loc) (i : nat) : loc := (fst l, snd l ++ [i]).

(** [Value.Index] of arrays and slices. *)
Definition Index (h : heap) (r : rval) (i : nat) : value :=
  match rdata r with
  | VArray xs =>
      match nth_error xs i with
      | Some x => Some (RV (elem_ty (rtype r)) x (option_map (fun l => extend l i) (raddr r)) (rro r))
      | None => None
      end
  | VSlice (Some (a, off, _)) =>
      let l := (a, [off + i]) in
      match load h l with
      | Some x => Some (RV (elem_ty (rtype r)) x (Some l) (rro r))
      | None => None
      end
  | _ => None
  end.

(** [Value.Elem] of pointers and interfaces. *)
Definition Elem (h : heap) (r : rval) : value :=
  match rdata r with
  | VPtr (Some l) =>
      match load h l with
      | Some x => Some (RV (elem_ty (rtype r)) x (Some l) (rro r))
      | None => None
      end
  | VIface (Some (t, x)) => Some (RV t x None (rro r))
  | _ => None
  end.

(** [Value.MapKeys], in the map's iteration order. *)
Definition MapKeys (h : heap) (r : rval) : list rval :=
  map (fun e => RV (key_ty (rtype r)) (fst e) None (rro r)) (map_entries h (rdata r)).

(** [Value.MapIndex]: the zero [Value] when the key is absent. *)
Definition MapIndex (h : heap) (r : rval) (key : rval) : value :=
  match find (fun e => go_eq (fst e) (rdata key)) (map_entries h (rdata r)) with
  | Some (_, x) => Some (RV (elem_ty (rtype r)) x None (rro r || rro key))
  | None => None
  end.

End Reflect.

(* ------------------------------------------------------------------ *)
(** ** The comparison state and its monad *)

Module Cmp.
Import Go Reflect.

(** [Config] (compare.go) *)
Record Config := mkConfig { IgnoreArrayOrder : bool; ObserveFieldTag : string }.

(** The state of one [Compare] call: the heap (channel receives drain it),
    and the [comparison] struct: [errs], [visits] and the [zero] flag. *)
Record state := mkstate {
  sheap : heap;
  errs : list cmperr;
  visits : list visit;
  zero : bool
}.

(** How a computation ends: normally, in a Go panic, with the goroutine
    blocked forever, or with the recursion fuel used up. *)
Inductive outcome (A : Type) :=
| Ok (a : A) (s : state)
| Panic (msg : string)
| Blocked
| OutOfFuel.
Arguments Ok {A} a s.
Arguments Panic {A} msg.
Arguments Blocked {A}.
Arguments OutOfFuel {A}.

(** The errors a finished [Compare] returns. *)
Definition returned (o : outcome (list cmperr)) : option (list cmperr) :=
  match o with Ok l _ => Some l | _ => None end.

Definition M (A : Type) := state -> outcome A.

Definition ret {A} (a : A) : M A := fun s => Ok a s.

Definition bind {A B} (m : M A) (k : A -> M B) : M B :=
  fun s =>
    match m s with
    | Ok a s' => k a s'
    | Panic msg => Panic msg
    | Blocked => Blocked
    | OutOfFuel => OutOfFuel
    end.

Notation "x <- m ;; k" := (bind m (fun x => k))
  (at level 61, m at next level, right associativity).
Notation "m ;;; k" := (bind m (fun _ => k))
  (at level 61, right associativity).

Definition get_heap : M heap := fun s => Ok (sheap s) s.
Definition get_zero : M bool := fun s => Ok (zero s) s.
Definition get_visits : M (list visit) := fun s => Ok (visits s) s.

Definition set_heap (h : heap) : M unit :=
  fun s => Ok tt (mkstate h (errs s) (visits s) (zero s)).
Definition set_zero (b : bool) : M unit :=
  fun s => Ok tt (mkstate (sheap s) (errs s) (visits s) b).
Definition add_visit (v : visit) : M unit :=
  fun s => Ok tt (mkstate (sheap s) (errs s) (v :: visits s) (zero s)).

(** [errorList.add] *)
Definition add_err (e : cmperr) : M unit :=
  fun s => Ok tt (mkstate (sheap s) (errs s ++ [e]) (visits s) (zero s)).

Definition panic {A} (msg : string) : M A := fun _ => Panic msg.
Definition block {A} : M A := fun _ => Blocked.

(** [for i := lo; i < lo + k; i++ { body(i) }] *)
Fixpoint for_ (lo k : nat) (body : nat -> M unit) : M unit :=
  match k with
  | O => ret tt
  | S k' => body lo ;;; for_ (S lo) k' body
  end.

Definition visit_eqb (x y : visit) : bool :=
  match x, y with
  | (a, b, t), (a', b', t') => loc_eqb a a' && loc_eqb b b' && ty_eqb t t'
  end.

End Cmp.

(* ------------------------------------------------------------------ *)
(** ** The comparator (compare.go) *)

Module Comparator.
Import Go Reflect Cmp.

Section Comparator.

(** The struct declarations of the program, by type name. *)
Variable structs : string -> list field.
(** [time.Time.Equal], on the data of two [time.Time] values. *)
Variable time_Equal : val -> val -> bool.
(** The receiver [conf Config] of every method below. *)
Variable conf : Config.

Definition Fields (t : ty) : list field :=
  match t with TStruct n => structs n | _ => [] end.

(** [Value.Field(i)]: addressable when the struct is, read-only when the
    struct is or when the field is unexported. *)
Definition Field (r : rval) (i : nat) : value :=
  match rdata r, nth_error (Fields (rtype r)) i with
  | VStruct xs, Some f =>
      match nth_error xs i with
      | Some x =>
          Some (RV (fty f) x (option_map (fun l => extend l i) (raddr r))
                   (rro r || negb (exported (fname f))))
      | None => None
      end
  | _, _ => None
  end.

(** [reflect.Zero(t)], with a bound on the nesting of struct types. *)
Fixpoint zero_val (n : nat) (t : ty) : option val :=
  match n with
  | O => None
  | S n' =>
      match t with
      | TBool => Some (VBool false)
      | TInt => Some (VInt 0)
      | TUint => Some (VUint 0)
      | TFloat64 => Some (VFloat (Num 0))
      | TString => Some (VString "")
      | TArray k e => option_map (fun z => VArray (repeat z k)) (zero_val n' e)
      | TSlice _ => Some (VSlice None)
      | TIface => Some (VIface None)
      | TPtr _ => Some (VPtr None)
      | TStruct nm =>
          let fix all (fs : list field) : option (list val) :=
            match fs with
            | [] => Some []
            | f :: fs' =>
                match zero_val n' (fty f), all fs' with
                | Some z, Some zs => Some (z :: zs)
                | _, _ => None
                end
            end in
          option_map VStruct (all (structs nm))
      | TMap _ _ => Some (VMap None)
      | TFunc _ => Some (VFunc None)
      | TChan _ _ => Some (VChan None)
      end
  end.

(** [Value.Recv]: panics on a value read through an unexported field and
    on a send-only channel; takes the oldest buffered element; on a closed
    and drained channel gives the zero value; otherwise blocks. *)
Definition Recv (n : nat) (r : rval) : M value :=
  if rro r then panic "reflect: reflect.Value.Recv using value obtained using unexported field"
  else
  match rtype r with
  | TChan SendDir _ => panic "reflect: recv on send-only channel"
  | _ =>
      match rdata r with
      | VChan (Some c) =>
          h <- get_heap ;;
          match lookup h c with
          | Some (BChan (x :: buf) cl) =>
              set_heap (update h c (BChan buf cl)) ;;;
              ret (Some (RV (elem_ty (rtype r)) x None false))
          | Some (BChan [] true) =>
              match zero_val n (elem_ty (rtype r)) with
              | Some z => ret (Some (RV (elem_ty (rtype r)) z None false))
              | None => fun _ => OutOfFuel
              end
          | _ => block
          end
      | _ => block
      end
  end.

Definition compareValidity (got want : value) (p : path) : M bool :=
  let gv := match got with Some _ => true | None => false end in
  let wv := match want with Some _ => true | None => false end in
  (if negb (Bool.eqb gv wv) then add_err (ValidityError got want p) else ret tt) ;;;
  ret (gv && wv).

Definition compareType (got want : rval) (p : path) : M bool :=
  if ty_eqb (rtype got) (rtype want) then ret true
  else add_err (TypeError got want p) ;;; ret false.

Definition hard (k : kind) : bool :=
  match k with KMap | KSlice | KPtr | KInterface => true | _ => false end.

(** The two addresses in increasing order. *)
Definition canon (ga wa : loc) : loc * loc :=
  if loc_ltb wa ga then (wa, ga) else (ga, wa).

Definition checkVisited (got want : rval) : M bool :=
  match raddr got, raddr want with
  | Some ga, Some wa =>
      if hard (kind_of (rtype got)) then
        let '(ga, wa) := canon ga wa in
        let v := (ga, wa, rtype got) in
        vs <- get_visits ;;
        if existsb (visit_eqb v) vs then ret false
        else add_visit v ;;; ret true
      else ret true
  | _, _ => ret true
  end.

(** The pair is a repeated visit: [checkVisited] stops the comparison. *)
Definition repeat_visit (got want : rval) (vs : list visit) : bool :=
  match raddr got, raddr want with
  | Some ga, Some wa =>
      hard (kind_of (rtype got))
      && existsb (visit_eqb (fst (canon ga wa), snd (canon ga wa), rtype got)) vs
  | _, _ => false
  end.

(** The visited set after [checkVisited] lets the comparison go on. *)
Definition visit_after (got want : rval) (vs : list visit) : list visit :=
  match raddr got, raddr want with
  | Some ga, Some wa =>
      if hard (kind_of (rtype got))
      then (fst (canon ga wa), snd (canon ga wa), rtype got) :: vs else vs
  | _, _ => vs
  end.

(** reflect.ValueOf of a nil pointer to interface{} *)
Definition gotNil : rval := RV (TPtr TIface) (VPtr None) None false.

(** The inner loop of [compareArrayIgnoreOrder]: the first index of the
    pool whose element [equals] the wanted one, removed from the pool. *)
Fixpoint scan_pool (equals : value -> value -> M bool) (got : rval) (ithWant : value)
    (pool : list nat) : M (option (list nat)) :=
  match pool with
  | [] => ret None
  | j :: rest =>
      h <- get_heap ;;
      b <- equals (Index h got j) ithWant ;;
      if b then ret (Some rest)
      else r <- scan_pool equals got ithWant rest ;; ret (option_map (cons j) r)
  end.

(** The outer loop of [compareArrayIgnoreOrder], from index [i] with [k]
    iterations left. *)
Fixpoint match_loop (equals : value -> value -> M bool) (got want : rval) (p : path)
    (i k : nat) (gotidx : list nat) : M unit :=
  match k with
  | O => ret tt
  | S k' =>
      let q := padd p (ArrNode i) in
      h <- get_heap ;;
      let ithWant := Index h want i in
      r <- scan_pool equals got ithWant gotidx ;;
      match r with
      | Some gotidx' => match_loop equals got want p (S i) k' gotidx'
      | None =>
          add_err (NilError (Some gotNil) ithWant q) ;;;
          match_loop equals got want p (S i) k' gotidx
      end
  end.

Definition compareArrayIgnoreOrder (equals : value -> value -> M bool)
    (got want : rval) (p : path) : M unit :=
  h <- get_heap ;;
  match_loop equals got want p 0 (Len h want) (seq 0 (Len h got)).

Definition compareArray (compare : value -> value -> path -> M unit)
    (equals : value -> value -> M bool) (got want : rval) (p : path) : M unit :=
  h <- get_heap ;;
  if negb (Nat.eqb (Len h got) (Len h want)) then add_err (LenError got want p)
  else if IgnoreArrayOrder conf then compareArrayIgnoreOrder equals got want p
  else
    for_ 0 (Len h want) (fun i =>
      let q := padd p (ArrNode i) in
      h <- get_heap ;;
      compare (Index h got i) (Index h want i) q).

Definition compareSlice (compare : value -> value -> path -> M unit)
    (equals : value -> value -> M bool) (got want : rval) (p : path) : M unit :=
  if opt_eqb loc_eqb (Pointer (rdata got)) (Pointer (rdata want)) then ret tt
  else if negb (Bool.eqb (IsNil (rdata got)) (IsNil (rdata want)))
  then add_err (NilError (Some got) (Some want) p)
  else compareArray compare equals got want p.

Definition compareInterface (compare : value -> value -> path -> M unit)
    (got want : rval) (p : path) : M unit :=
  if negb (Bool.eqb (IsNil (rdata got)) (IsNil (rdata want)))
  then add_err (NilError (Some got) (Some want) p)
  else h <- get_heap ;; compare (Elem h got) (Elem h want) p.

Definition comparePointer (compare : value -> value -> path -> M unit)
    (got want : rval) (p : path) : M unit :=
  if opt_eqb loc_eqb (Pointer (rdata got)) (Pointer (rdata want)) then ret tt
  else h <- get_heap ;; compare (Elem h got) (Elem h want) p.

Definition structIsTime (r : rval) : bool :=
  match rtype r with TStruct n => String.eqb n "time.Time" | _ => false end.

Definition compareStruct (compare : value -> value -> path -> M unit)
    (got want : rval) (p : path) : M unit :=
  if structIsTime got && negb (rro got) then
    (if time_Equal (rdata got) (rdata want) then ret tt
     else add_err (ValueError (rdata got) (rdata want) p))
  else
    let tag := ObserveFieldTag conf in
    let fs := Fields (rtype want) in
    for_ 0 (length fs) (fun i =>
      match nth_error fs i with
      | None => ret tt
      | Some f =>
          if (0 <? String.length tag) && String.eqb (tag_get (ftag f) tag) "-"
          then ret tt
          else
            (if (0 <? String.length tag) && String.eqb (tag_get (ftag f) tag) "+"
             then set_zero true else ret tt) ;;;
            compare (Field got i) (Field want i) (padd p (StructNode (fname f)))
      end).

(** The loop of [compareMap] over [want.MapKeys()]. *)
Fixpoint map_loop (compare : value -> value -> path -> M unit)
    (got want : rval) (p : path) (keys : list rval) : M unit :=
  match keys with
  | [] => ret tt
  | key :: keys' =>
      let q := padd p (MapNode (rdata key)) in
      h <- get_heap ;;
      let valGot := MapIndex h got key in
      let valWant := MapIndex h want key in
      (match valGot, valWant with
       | Some _, Some _ => compare valGot valWant q
       | _, _ => add_err (ValidityError valGot valWant q)
       end) ;;;
      map_loop compare got want p keys'
  end.

Definition compareMap (compare : value -> value -> path -> M unit)
    (got want : rval) (p : path) : M unit :=
  if opt_eqb loc_eqb (Pointer (rdata got)) (Pointer (rdata want)) then ret tt
  else if negb (Bool.eqb (IsNil (rdata got)) (IsNil (rdata want)))
  then add_err (NilError (Some got) (Some want) p)
  else
    h <- get_heap ;;
    if negb (Nat.eqb (Len h got) (Len h want)) then add_err (LenError got want p)
    else map_loop compare got want p (MapKeys h want).

Definition compareFunc (got want : rval) (p : path) : M unit :=
  if negb (IsNil (rdata got)) || negb (IsNil (rdata want))
  then add_err (FuncError got want p) else ret tt.

Definition compareString (got want : rval) (p : path) : M unit :=
  match rdata got, rdata want with
  | VString gs, VString ws =>
      if String.eqb gs ws then ret tt
      else add_err (StringError gs ws (StringDiff.sdiff gs ws) p)
  | _, _ => ret tt
  end.

Definition compareChan (compare : value -> value -> path -> M unit) (n : nat)
    (got want : rval) (p : path) : M unit :=
  h <- get_heap ;;
  if negb (Nat.eqb (Len h got) (Len h want)) then add_err (LenError got want p)
  else
    for_ 1 (Len h want) (fun i =>
      let q := padd p (ChanNode i) in
      ithGot <- Recv n got ;;
      ithWant <- Recv n want ;;
      compare ithGot ithWant q).

Definition compareInterfaceValue (got want : rval) (p : path) : M unit :=
  if go_eq (rdata got) (rdata want) then ret tt
  else add_err (ValueError (rdata got) (rdata want) p).

Definition compareZero (got want : rval) (p : path) : M unit :=
  let g := IsZero (rdata got) in
  let w := IsZero (rdata want) in
  (if negb (Bool.eqb g w) then add_err (ZeroError g w p) else ret tt) ;;;
  set_zero false.

(** The [switch got.Kind()] of [Config.compare]. *)
Definition compareKind (compare : value -> value -> path -> M unit)
    (equals : value -> value -> M bool) (n : nat)
    (g w : rval) (p : path) : M unit :=
  match kind_of (rtype g) with
  | KArray => compareArray compare equals g w p
  | KSlice => compareSlice compare equals g w p
  | KInterface => compareInterface compare g w p
  | KPtr => comparePointer compare g w p
  | KStruct => compareStruct compare g w p
  | KMap => compareMap compare g w p
  | KFunc => compareFunc g w p
  | KString => compareString g w p
  | KChan => compareChan compare n g w p
  | _ => compareInterfaceValue g w p
  end.

(** One step of [Config.compare], given the recursive call [compare], the
    [equals] it induces, and the fuel left for zero values. *)
Definition compare_step (compare : value -> value -> path -> M unit)
    (equals : value -> value -> M bool) (n : nat)
    (got want : value) (p : path) : M unit :=
  ok <- compareValidity got want p ;;
  if negb ok then ret tt else
  match got, want with
  | Some g, Some w =>
      ok <- compareType g w p ;;
      if negb ok then ret tt else
      ok <- checkVisited g w ;;
      if negb ok then ret tt else
      z <- get_zero ;;
      if z then compareZero g w p else
      compareKind compare equals n g w p
  | _, _ => ret tt
  end.

(** [Config.equals]: a fresh [comparison] on the same heap. *)
Definition equals_with (compare : value -> value -> path -> M unit)
    (got want : value) : M bool :=
  fun s =>
    match compare got want [] (mkstate (sheap s) [] [] false) with
    | Ok _ s' =>
        Ok (match errs s' with [] => true | _ :: _ => false end)
           (mkstate (sheap s') (errs s) (visits s) (zero s))
    | Panic m => Panic m
    | Blocked => Blocked
    | OutOfFuel => OutOfFuel
    end.

(** [Config.compare], with fuel bounding the depth of the recursion. *)
Fixpoint compare (fuel : nat) (got want : value) (p : path) : M unit :=
  match fuel with
  | O => fun _ => OutOfFuel
  | S f => compare_step (compare f) (equals_with (compare f)) f got want p
  end.

Definition equals (fuel : nat) (got want : value) : M bool :=
  equals_with (compare fuel) got want.

(** [reflect.ValueOf] of an [interface{}] argument ([None] is nil). *)
Definition ValueOf (x : option (ty * val)) : value :=
  match x with Some (t, v) => Some (RV t v None false) | None => None end.

(** [Config.Compare]: the error list, empty when [err()] is nil. *)
Definition Compare (fuel : nat) (h : heap) (got want : option (ty * val))
    : outcome (list cmperr) :=
  let p := [RootNode (option_map fst want)] in
  match compare fuel (ValueOf got) (ValueOf want) p (mkstate h [] [] false) with
  | Ok _ s => Ok (errs s) s
  | Panic m => Panic m
  | Blocked => Blocked
  | OutOfFuel => OutOfFuel
  end.

End Comparator.

End Comparator.
(* ------------------------------------------------------------------ *)
(** * Properties of the comparator *)

Import Go Reflect Cmp Comparator.

(** Values used in the statements below. *)
Module Fixtures.
Local Open Scope string_scope.

(** A buffered [chan int] in allocation [0]. *)
Definition ch_int : ty * val := (TChan BothDir TInt, VChan (Some 0)).
(** The same channel seen through a send-only [chan<- int]. *)
Definition ch_send : ty * val := (TChan SendDir TInt, VChan (Some 0)).

(** [T] has a pointer field [N] tagged [cmp:"+"] and a string field [V];
    [U] has two pointers to [T]. *)
Definition tagged_structs (n : string) : list field :=
  if String.eqb n "T" then
    [mkfield "N" [("cmp", "+")] (TPtr (TStruct "T")); mkfield "V" [] TString]
  else if String.eqb n "U" then
    [mkfield "A" [] (TPtr (TStruct "T")); mkfield "B" [] (TPtr (TStruct "T"))]
  else [].

(** [t1 := &T{V: "a"}] in allocation 0, [t2 := &T{V: "b"}] in allocation 1. *)
Definition tagged_heap : heap :=
  [(0, BVals [VStruct [VPtr None; VString "a"]]);
   (1, BVals [VStruct [VPtr None; VString "b"]])].

Definition u_got : ty * val := (TStruct "U", VStruct [VPtr (Some (0, [0])); VPtr (Some (0, [0]))]).
Definition u_want : ty * val := (TStruct "U", VStruct [VPtr (Some (1, [0])); VPtr (Some (1, [0]))]).

Definition path_B_V : path :=
  [RootNode (Some (TStruct "U")); StructNode "B"; StructNode "V"].

(** Three [chan int] values: [c0] empty, [c1] and [c2] holding [1]. *)
Definition chan_heap : heap :=
  [(0, BChan [] false); (1, BChan [VInt 1] false); (2, BChan [VInt 1] false)].
Definition chan_arr_ty : ty := TArray 2 (TChan BothDir TInt).
Definition arr_c0_c2 : ty * val := (chan_arr_ty, VArray [VChan (Some 0); VChan (Some 2)]).
Definition arr_c1_c2 : ty * val := (chan_arr_ty, VArray [VChan (Some 1); VChan (Some 2)]).

(** [S] has one field [F []int] tagged [cmp:"+"].  [s1 := &S{F: []int{1}}]
    (allocation 0, backing array 2), [s2 := &S{F: []int{2}}] (allocation 1,
    backing array 3); [m1] (allocation 4) maps ["b"] to [&s1.F] and ["a"] to
    [s1], in this iteration order; [m2] (allocation 5) maps ["a"] to [s2] and
    ["b"] to [&s2.F]. *)
Definition map_structs (n : string) : list field :=
  if String.eqb n "S" then [mkfield "F" [("cmp", "+")] (TSlice TInt)] else [].
Definition map_heap : heap :=
  [(0, BVals [VStruct [VSlice (Some (2, 0, 1))]]);
   (1, BVals [VStruct [VSlice (Some (3, 0, 1))]]);
   (2, BVals [VInt 1]); (3, BVals [VInt 2]);
   (4, BMap [(VString "b", VIface (Some (TPtr (TSlice TInt), VPtr (Some (0, [0; 0])))));
             (VString "a", VIface (Some (TPtr (TStruct "S"), VPtr (Some (0, [0])))))]);
   (5, BMap [(VString "a", VIface (Some (TPtr (TStruct "S"), VPtr (Some (1, [0])))));
             (VString "b", VIface (Some (TPtr (TSlice TInt), VPtr (Some (1, [0; 0])))))])].
Definition map_ty : ty := TMap TString TIface.
Definition m1 : ty * val := (map_ty, VMap (Some 4)).
Definition m2 : ty * val := (map_ty, VMap (Some 5)).

(** [type Node struct { Next *Node }]: [n1] (allocation 0) and [n2]
    (allocation 1) point to each other. *)
Definition node_structs (n : string) : list field :=
  if String.eqb n "Node" then [mkfield "Next" [] (TPtr (TStruct "Node"))] else [].
Definition node_ty : ty := TPtr (TStruct "Node").
Definition node_heap : heap :=
  [(0, BVals [VStruct [VPtr (Some (1, [0]))]]); (1, BVals [VStruct [VPtr (Some (0, [0]))]])].
(** The fields [n1.Next] and [n2.Next], and the visit of that pair. *)
Definition n1_next : rval := RV node_ty (VPtr (Some (1, [0]))) (Some (0, [0; 0])) false.
Definition n2_next : rval := RV node_ty (VPtr (Some (0, [0]))) (Some (1, [0; 0])) false.
Definition next_visit : visit := ((0, [0; 0]), (1, [0; 0]), node_ty).

(** [[]int{1, 2, 3}] and [[]int{1, 2}]. *)
Definition slice_heap : heap := [(0, BVals [VInt 1; VInt 2; VInt 3]); (1, BVals [VInt 1; VInt 2])].
Definition s123 : rval := RV (TSlice TInt) (VSlice (Some (0, 0, 3))) None false.
Definition s12 : rval := RV (TSlice TInt) (VSlice (Some (1, 0, 2))) None false.

(** [map[string]int{"a": 1, "b": 2}] and [map[string]int{"a": 1, "c": 2}]. *)
Definition kv_heap : heap :=
  [(0, BMap [(VString "a", VInt 1); (VString "b", VInt 2)]);
   (1, BMap [(VString "a", VInt 1); (VString "c", VInt 2)])].
Definition kv_ab : rval := RV (TMap TString TInt) (VMap (Some 0)) None false.
Definition kv_ac : rval := RV (TMap TString TInt) (VMap (Some 1)) None false.

(** [[]int{1, 2}] and [[]int{2, 1}], on backing arrays of their own. *)
Definition perm_heap : heap := [(0, BVals [VInt 1; VInt 2]); (1, BVals [VInt 2; VInt 1])].
Definition sl_12 : ty * val := (TSlice TInt, VSlice (Some (0, 0, 2))).
Definition sl_21 : ty * val := (TSlice TInt, VSlice (Some (1, 0, 2))).

End Fixtures.

(* ------------------------------------------------------------------ *)
(** ** Invariants of a run *)

Module Invariants.

(** [h'] is [h] after channel receives: every allocation is unchanged but
    for the buffers of channels. *)
Definition heap_le (h h' : heap) : Prop :=
  forall a, lookup h' a = lookup h a
            \/ exists buf cl buf', lookup h a = Some (BChan buf cl)
                                   /\ lookup h' a = Some (BChan buf' cl).

(** [q] extends the path [p]. *)
Definition prefix (p q : path) : Prop := exists r, q = p ++ r.

(** The heap holds no channel. *)
Definition no_chan (h : heap) : Prop :=
  forall a buf cl, lookup h a <> Some (BChan buf cl).

(** A computation that finishes only drains channels, and only appends
    mismatch records, all of them under the path [p]. *)
Definition grows {A} (p : path) (m : M A) : Prop :=
  forall s a s', m s = Ok a s' ->
    heap_le (sheap s) (sheap s')
    /\ (no_chan (sheap s) -> sheap s' = sheap s)
    /\ exists new, errs s' = errs s ++ new /\ Forall (fun e => prefix p (err_path e)) new.

End Invariants.

(* ------------------------------------------------------------------ *)
(** ** First-fit matching *)

(** [compareArrayIgnoreOrder] matches the wanted elements, in order, each
    to the first still unmatched element of [got] that [equals] it.  Here
    that matching on its own, over a relation [e i j] ("wanted [i] equals
    got [j]"). *)
Module Matching.

(** The first index of the pool that [f] accepts, removed from the pool. *)
Fixpoint pick (f : nat -> bool) (pool : list nat) : option (nat * list nat) :=
  match pool with
  | [] => None
  | j :: rest =>
      if f j then Some (j, rest)
      else match pick f rest with Some (c, rest') => Some (c, j :: rest') | None => None end
  end.

(** Rows [i .. i + k - 1] matched in turn; [None] when a row finds no column. *)
Fixpoint greedy (e : nat -> nat -> bool) (i k : nat) (pool : list nat) : option (list nat) :=
  match k with
  | O => Some []
  | S k' =>
      match pick (e i) pool with
      | Some (c, pool') => option_map (cons c) (greedy e (S i) k' pool')
      | None => None
      end
  end.

(** The pool after taking the columns [taken]. *)
Definition pool_of (taken : list nat) (n : nat) : list nat :=
  filter (fun x => negb (existsb (Nat.eqb x) taken)) (seq 0 n).

(** Row-greedy matchings, as functions from rows to columns: every row
    takes the first column it accepts that no earlier row took. *)
Definition RG (e : nat -> nat -> bool) (n : nat) (sigma : nat -> nat) : Prop :=
  forall r, r < n ->
    sigma r < n /\ e r (sigma r) = true
    /\ (forall r', r' < r -> sigma r' <> sigma r)
    /\ (forall x, x < sigma r -> e r x = true -> exists r', r' < r /\ sigma r' = x).

(** The inverse of a matching [sigma] of [n] rows. *)
Definition tau (n : nat) (sigma : nat -> nat) (c : nat) : nat :=
  match find (fun r => Nat.eqb (sigma r) c) (seq 0 n) with Some r => r | None => 0 end.

End Matching.

(* ------------------------------------------------------------------ *)
(** ** Two runs side by side *)

Module Lockstep.

(** Every allocation of the heap is a variable or a backing array. *)
Definition vars_only (h : heap) : bool :=
  forallb (fun e => match snd e with BVals _ => true | _ => false end) h.

(** Two values are both read-only or both not (when both are valid). *)
Definition ro_sync (x y : value) : Prop :=
  match x, y with Some a, Some b => rro a = rro b | _, _ => True end.

(** [mA] and [mB], started on the heap [h] with the same visited set and
    the same "+" flag, and both finishing, leave the heap [h], agree on the
    visited set and the flag, give results related by [Q], and append
    mismatch records either both or neither. *)
Definition lock (h : heap) {A B} (mA : M A) (mB : M B) (Q : A -> B -> Prop) : Prop :=
  forall s1 s2 a b s1' s2',
    sheap s1 = h -> sheap s2 = h -> visits s1 = visits s2 -> zero s1 = zero s2 ->
    mA s1 = Ok a s1' -> mB s2 = Ok b s2' ->
    sheap s1' = h /\ sheap s2' = h /\ visits s1' = visits s2' /\ zero s1' = zero s2'
    /\ Q a b
    /\ exists nA nB, errs s1' = errs s1 ++ nA /\ errs s2' = errs s2 ++ nB
                     /\ (nA = [] <-> nB = []).

(** The verdict of [equals_with cmp] on the heap [h], when it finishes. *)
Definition fresh_verdict (cmp : value -> value -> path -> M unit) (h : heap) (x y : value)
    : option bool :=
  match cmp x y [] (mkstate h [] [] false) with
  | Ok _ s' => Some (match errs s' with [] => true | _ :: _ => false end)
  | _ => None
  end.

End Lockstep.


Module StringDiffTests.
Import StringDiff.

Example sdiff_abc : sdiff "abc" "adc" = Some (mkdiff 1 2).
Proof. reflexivity. Qed.
Example sdiff_a : sdiff "a" "a" = None.
Proof. reflexivity. Qed.
Example sdiff_hello_tab : sdiff "hello world" "hell0	World" = Some (mkdiff 4 7).
Proof. reflexivity. Qed.
Example sdiff_tail1 : sdiff "hello world!!" "hello world" = Some (mkdiff 11 13).
Proof. reflexivity. Qed.
Example sdiff_tail2 : sdiff "hello world" "hello world!!" = Some (mkdiff 11 11).
Proof. reflexivity. Qed.
Example sdiff_worlb : sdiff "hello worlb" "hello world!!" = Some (mkdiff 10 11).
Proof. reflexivity. Qed.
Example sdiff_kanji : sdiff "日木語" "日本語" = Some (mkdiff 3 6).
Proof. reflexivity. Qed.

End StringDiffTests.


(* ------------------------------------------------------------------ *)
(** ** Concrete runs *)

Module Runs.
Import Fixtures StringDiff.
Local Open Scope string_scope.

(** C1: comparing a buffered channel with itself drains it from both
    sides: a closed channel holding [1; 2] is reported as [1] vs [2] at
    position 1, and an open channel holding [1] blocks for ever, under every
    configuration. *)
Theorem compare_chan_self_not_equal :
  forall structs teq conf,
    returned (Compare structs teq conf 10 [(0, BChan [VInt 1; VInt 2] true)]
                (Some ch_int) (Some ch_int))
      = Some [ValueError (VInt 1) (VInt 2) [RootNode (Some (TChan BothDir TInt)); ChanNode 1]]
    /\ Compare structs teq conf 10 [(0, BChan [VInt 1] false)] (Some ch_int) (Some ch_int)
       = Blocked.
Proof. intros; split; vm_compute; reflexivity. Qed.

(** C9: two distinct send-only channels holding one element each make
    [Compare] panic in [Value.Recv]. *)
Theorem compare_send_only_chan_panics :
  forall structs teq conf,
    Compare structs teq conf 10
      [(0, BChan [VInt 1] false); (1, BChan [VInt 1] false)]
      (Some (TChan SendDir TInt, VChan (Some 0))) (Some (TChan SendDir TInt, VChan (Some 1)))
    = Panic "reflect: recv on send-only channel".
Proof. intros; vm_compute; reflexivity. Qed.

(** C3: ["abc"] and ["axy"] differ from index 1 to the end of the overlap,
    yet the range ends at [start + 1 = 2], not at the shorter length [3]. *)
Theorem sdiff_no_resync_end :
  sdiff "abc" "axy" = Some (mkdiff 1 2)
  /\ Nat.min (String.length "abc") (String.length "axy") = 3%nat.
Proof. split; reflexivity. Qed.

(** C4, counterexample: when [b] is the prefix, the range is [len b, len a]. *)
Theorem sdiff_prefix_b_counterexample :
  sdiff "hello world!!" "hello world" = Some (mkdiff 11 13)
  /\ sdiff "hello world!!" "hello world" <> Some (mkdiff 11 11).
Proof. split; [reflexivity | discriminate]. Qed.

(** C2, counterexample: a nil [[]int] against [[]int{1, 2}] records one
    [Nil] mismatch and no [Length] mismatch. *)
Theorem compare_nil_slice_no_length :
    returned (Compare (fun _ => []) (fun _ _ => true) (mkConfig false "") 10 [(1, BVals [VInt 1; VInt 2])]
                (Some (TSlice TInt, VSlice None)) (Some (TSlice TInt, VSlice (Some (1, 0, 2)))))
    = Some [NilError (Some (RV (TSlice TInt) (VSlice None) None false))
                     (Some (RV (TSlice TInt) (VSlice (Some (1, 0, 2))) None false))
                     [RootNode (Some (TSlice TInt))]].
Proof. vm_compute; reflexivity. Qed.

(** C5: the "+" flag set for [B.N] is not consumed (the cycle guard stops
    at the repeated pair), so the following untagged field [B.V] is
    compared for zero-ness only: ["a"] vs ["b"] is reported under [A.V] but
    not under [B.V], although the same strings compared on their own give a
    String mismatch. *)
Theorem compare_plus_flag_leaks :
    returned (Compare tagged_structs (fun _ _ => true) (mkConfig false "cmp") 10 tagged_heap
                (Some u_got) (Some u_want))
    = Some [StringError "a" "b" (Some (mkdiff 0 1))
              [RootNode (Some (TStruct "U")); StructNode "A"; StructNode "V"]]
    /\ returned (Compare tagged_structs (fun _ _ => true) (mkConfig false "cmp") 10 tagged_heap
                   (Some (TString, VString "a")) (Some (TString, VString "b")))
       = Some [StringError "a" "b" (Some (mkdiff 0 1)) [RootNode (Some TString)]].
Proof. split; vm_compute; reflexivity. Qed.

(** C7: with [IgnoreArrayOrder], [[c0, c2]] against [[c1, c2]] passes
    (the trial match of [c1] against [c2] drains both) while the reverse
    fails; and with the "+" tag observed, [m1] against [m2] passes while
    [m2] against [m1] fails: the zero-only step on [s1.F] and [s2.F] marks
    the pair visited, and the two maps iterate their keys in different
    orders, so only one direction compares the slices' elements. *)
Theorem compare_not_symmetric :
    returned (Compare (fun _ => []) (fun _ _ => true) (mkConfig true "") 10 chan_heap
                (Some arr_c0_c2) (Some arr_c1_c2)) = Some []
    /\ returned (Compare (fun _ => []) (fun _ _ => true) (mkConfig true "") 10 chan_heap
                   (Some arr_c1_c2) (Some arr_c0_c2)) <> Some []
    /\ returned (Compare map_structs (fun _ _ => true) (mkConfig false "cmp") 20 map_heap
                   (Some m1) (Some m2)) = Some []
    /\ returned (Compare map_structs (fun _ _ => true) (mkConfig false "cmp") 20 map_heap
                   (Some m2) (Some m1)) <> Some [].
Proof. repeat split; vm_compute; first [reflexivity | discriminate]. Qed.

End Runs.

(* ------------------------------------------------------------------ *)
(** ** The messages of [errors.go] and the string trimming of [sdiff]'s callers *)

Module GoStrings.
Local Open Scope string_scope.
Local Open Scope Z_scope.

(** Go's [int] arithmetic wraps around at 64 bits. *)
Definition wrap (z : Z) : Z := (z + 2 ^ 63) mod 2 ^ 64 - 2 ^ 63.

(** [s[i:j]]: panics ([None]) unless [0 <= i <= j <= len(s)]. *)
Definition slice (s : string) (i j : Z) : option string :=
  if (0 <=? i) && (i <=? j) && (j <=? Z.of_nat (String.length s))
  then Some (String.substring (Z.to_nat i) (Z.to_nat (j - i)) s)
  else None.

Definition esc : string := String (ascii_of_nat 27) EmptyString.
Definition dq : string := String (ascii_of_nat 34) EmptyString.
Definition nl : ascii := ascii_of_nat 10.

Definition redColor : string := esc ++ "[91m".
Definition cyanColor : string := esc ++ "[96m".
Definition stopColor : string := esc ++ "[0m".
Definition gotColor : string := redColor.
Definition wantColor : string := cyanColor.
Definition diffGotColor : string := esc ++ "[46m" ++ esc ++ "[30m".
Definition diffGotStopColor : string := esc ++ "[0m".
Definition diffWantColor : string := esc ++ "[41m" ++ esc ++ "[30m".
Definition diffWantStopColor : string := esc ++ "[0m".

(** [newStringError(got, want, p)]: the [got] and [want] fields it builds
    (its path is [p]); [None] when a slice expression panics. *)
Definition newStringError (got want : string) : option (string * string) :=
  let g0 := gotColor ++ dq ++ got ++ dq ++ stopColor in
  let w0 := wantColor ++ dq ++ want ++ dq ++ stopColor in
  match StringDiff.sdiff got want with
  | None => Some (g0, w0)
  | Some d =>
      let ds := StringDiff.start d in
      let de := StringDiff.end_ d in
      match slice got 0 ds, slice got de (Z.of_nat (String.length got)), slice got ds de with
      | Some start, Some end_, Some delta =>
          let g := gotColor ++ dq ++ start ++ stopColor ++ diffGotColor ++ delta
                   ++ diffGotStopColor ++ gotColor ++ end_ ++ dq ++ stopColor in
          let lw := Z.of_nat (String.length want) in
          if lw >? ds then
            match slice want 0 ds with
            | None => None
            | Some start =>
                let pieces :=
                  if lw >? de then
                    match slice want de lw, slice want ds de with
                    | Some end_, Some delta => Some (end_, delta)
                    | _, _ => None
                    end
                  else
                    match slice want ds lw with
                    | Some delta => Some (EmptyString, delta)
                    | None => None
                    end in
                match pieces with
                | Some (end_, delta) =>
                    Some (g, wantColor ++ dq ++ start ++ stopColor ++ diffWantColor ++ delta
                             ++ diffWantStopColor ++ wantColor ++ end_ ++ dq ++ stopColor)
                | None => None
                end
            end
          else Some (g, w0)
      | _, _, _ => None
      end
  end.

(** The plain field of [newStringError]: [color + `"` + s + `"` + stopColor]. *)
Definition quoted (color s : string) : string := color ++ dq ++ s ++ dq ++ stopColor.

(** The field of [newStringError] with a marked middle part [s2]:
    [color + `"` + s1 + stopColor + mark + s2 + markstop + color + s3 + `"` + stopColor]. *)
Definition marked (color mark markstop s1 s2 s3 : string) : string :=
  color ++ dq ++ s1 ++ stopColor ++ mark ++ s2 ++ markstop ++ color ++ s3 ++ dq ++ stopColor.

(** The method [length] of [*diff]. *)
Definition diff_length (d : StringDiff.diff) : Z := StringDiff.end_ d - StringDiff.start d.

(** [strim(s, pos, max)]; [None] when the slice expression panics. *)
Definition strim (s : string) (pos max : Z) : option string :=
  let length := Z.of_nat (String.length s) in
  if length <=? max then Some s else
  let half := Z.quot max 2 in
  if length >? max then
    let '(lh, rh) := if pos >? half then (wrap (pos - half), wrap (pos + half)) else (0, max) in
    let '(lh, rh) :=
      if rh >? length then (wrap (lh - wrap (rh - length)), wrap (rh - wrap (rh - length)))
      else (lh, rh) in
    slice s lh rh
  else Some s.

(** The loop of [strings.TrimRight(s, "\n")], on the bytes of [s] in
    reverse order: drops the newlines at the end. *)
Fixpoint drop_nl (l : list ascii) : list ascii :=
  match l with
  | c :: l' => if Ascii.eqb c nl then drop_nl l' else l
  | [] => []
  end.

(** [strings.TrimRight(s, "\n")] *)
Definition TrimRight_nl (s : string) : string :=
  string_of_list_ascii (rev (drop_nl (rev (list_ascii_of_string s)))).

(** The method [Error] of [*errorList], given the messages [err.Error()] of its errors. *)
Definition errorList_Error (msgs : list string) : string :=
  TrimRight_nl (fold_left (fun res m => res ++ m ++ String nl EmptyString) msgs EmptyString).

End GoStrings.

(* ------------------------------------------------------------------ *)
(** ** Int arrays as reflection values *)

Module ArrayDefs.
Import Reflect.

(** The element [Index] returns for an [int] array, by its [nth_error]. *)
Definition iv (a : option Z) : value := option_map (fun z => RV TInt (VInt z) None false) a.

(** "wanted [i] equals got [j]" on int elements. *)
Definition e_int (gs ws : list Z) (i j : nat) : bool := opt_eqb Z.eqb (nth_error gs j) (nth_error ws i).

End ArrayDefs.


(* ------------------------------------------------------------------ *)
(** ** Facts about the comparator *)

Module Facts.
Import Invariants.

Lemma ty_eqb_refl t : ty_eqb t t = true.
Proof. unfold ty_eqb. destruct (ty_eq_dec t t); congruence. Qed.

Lemma loc_eqb_refl l : loc_eqb l l = true.
Proof.
  unfold loc_eqb. rewrite Nat.eqb_refl.
  destruct (list_eq_dec Nat.eq_dec (snd l) (snd l)); [reflexivity|congruence].
Qed.

Lemma checkVisited_spec g w s :
  checkVisited g w s =
  if repeat_visit g w (visits s) then Ok false s
  else Ok true (mkstate (sheap s) (errs s) (visit_after g w (visits s)) (zero s)).
Proof.
  unfold checkVisited, repeat_visit, visit_after.
  destruct (raddr g), (raddr w); try (destruct s; reflexivity).
  destruct (hard _); [|destruct s; reflexivity].
  destruct (canon l l0) as [x y]; simpl.
  unfold bind, get_visits. destruct (existsb _ _); [reflexivity|].
  reflexivity.
Qed.

Lemma compare_S structs teq conf f g w p s :
  compare structs teq conf (S f) (Some g) (Some w) p s =
  if ty_eqb (rtype g) (rtype w) then
    if repeat_visit g w (visits s) then Ok tt s
    else
      let s1 := mkstate (sheap s) (errs s) (visit_after g w (visits s)) (zero s) in
      if zero s then compareZero g w p s1
      else compareKind structs teq conf (compare structs teq conf f)
             (equals_with (compare structs teq conf f)) f g w p s1
  else Ok tt (mkstate (sheap s) (errs s ++ [TypeError g w p]) (visits s) (zero s)).
Proof.
  simpl compare. unfold compare_step at 1, compareValidity, compareType. simpl.
  destruct (ty_eqb _ _); simpl; [|reflexivity].
  unfold bind, ret; simpl. rewrite checkVisited_spec.
  destruct (repeat_visit _ _ _); simpl; [reflexivity|].
  unfold get_zero. destruct (zero s); reflexivity.
Qed.

Lemma compareZero_spec g w p s :
  compareZero g w p s =
  Ok tt (mkstate (sheap s)
           (errs s ++ (if Bool.eqb (IsZero (rdata g)) (IsZero (rdata w)) then []
                       else [ZeroError (IsZero (rdata g)) (IsZero (rdata w)) p]))
           (visits s) false).
Proof.
  unfold compareZero, bind, ret, add_err, set_zero.
  destruct (Bool.eqb _ _); simpl; [rewrite app_nil_r|]; reflexivity.
Qed.

Lemma heap_le_refl h : heap_le h h.
Proof. intros a; left; reflexivity. Qed.

Lemma heap_le_trans h1 h2 h3 : heap_le h1 h2 -> heap_le h2 h3 -> heap_le h1 h3.
Proof.
  intros H12 H23 a. destruct (H12 a) as [E1|(b1 & c1 & b1' & E1 & E1')];
    destruct (H23 a) as [E2|(b2 & c2 & b2' & E2 & E2')].
  - left; congruence.
  - rewrite E1 in E2. right; eauto.
  - right. exists b1, c1, b1'. split; congruence.
  - right. rewrite E1' in E2. injection E2 as <- <-. eauto.
Qed.

Lemma lookup_update h c b a :
  lookup (update h c b) a =
  if Nat.eqb c a then match lookup h c with Some _ => Some b | None => None end
  else lookup h a.
Proof.
  induction h as [|[a' b'] h IH]; simpl.
  - unfold lookup; simpl. destruct (Nat.eqb c a); reflexivity.
  - unfold lookup in *; simpl.
    destruct (Nat.eqb_spec a' c) as [->|Hne]; simpl.
    + destruct (Nat.eqb c a); reflexivity.
    + destruct (Nat.eqb_spec a' a) as [->|Hne'].
      * destruct (Nat.eqb_spec c a); [congruence|reflexivity].
      * rewrite IH. reflexivity.
Qed.

Lemma heap_le_update_chan h c x buf cl :
  lookup h c = Some (BChan (x :: buf) cl) -> heap_le h (update h c (BChan buf cl)).
Proof.
  intros Hc a. rewrite lookup_update. destruct (Nat.eqb_spec c a) as [<-|_].
  - rewrite Hc. right. eauto.
  - left; reflexivity.
Qed.

Lemma map_entries_le h h' v : heap_le h h' -> map_entries h' v = map_entries h v.
Proof.
  intros Hle. unfold map_entries. destruct v; try reflexivity. destruct m as [m|]; [|reflexivity].
  destruct (Hle m) as [->|(b & c & b' & E & E')]; [reflexivity|]. rewrite E, E'. reflexivity.
Qed.

Lemma MapIndex_le h h' r k : heap_le h h' -> MapIndex h' r k = MapIndex h r k.
Proof. intros Hle. unfold MapIndex. rewrite (map_entries_le _ _ _ Hle). reflexivity. Qed.

Lemma prefix_refl p : prefix p p.
Proof. exists []. rewrite app_nil_r. reflexivity. Qed.

Lemma prefix_trans p q r : prefix p q -> prefix q r -> prefix p r.
Proof. intros [x ->] [y ->]. exists (x ++ y). rewrite app_assoc. reflexivity. Qed.

Lemma prefix_padd p n : prefix p (padd p n).
Proof. exists [n]. reflexivity. Qed.

Lemma grows_ret {A} p (a : A) : grows p (ret a).
Proof.
  intros s b s' E. injection E as <- <-. split; [apply heap_le_refl|]. split; [auto|].
  exists []. rewrite app_nil_r. auto.
Qed.

Lemma grows_bind {A B} p (m : M A) (k : A -> M B) :
  grows p m -> (forall a, grows p (k a)) -> grows p (bind m k).
Proof.
  intros Hm Hk s b s' E. unfold bind in E. destruct (m s) as [a s1| | |] eqn:Es; try discriminate.
  destruct (Hm _ _ _ Es) as (H1 & K1 & n1 & E1 & F1).
  destruct (Hk _ _ _ _ E) as (H2 & K2 & n2 & E2 & F2).
  split; [eapply heap_le_trans; eauto|].
  split; [intros Hn; rewrite K2, K1; auto; rewrite K1; auto|].
  exists (n1 ++ n2). rewrite E2, E1, app_assoc. split; [reflexivity|].
  apply Forall_app; auto.
Qed.

Lemma grows_add_err p e : prefix p (err_path e) -> grows p (add_err e).
Proof.
  intros Hp s a s' E. injection E as <- <-. simpl. split; [apply heap_le_refl|]. split; [auto|].
  exists [e]. auto.
Qed.

Lemma grows_keep {A} p (m : M A) :
  (forall s a s', m s = Ok a s' -> sheap s' = sheap s /\ errs s' = errs s) -> grows p m.
Proof.
  intros H s a s' E. destruct (H _ _ _ E) as [-> ->]. split; [apply heap_le_refl|]. split; [auto|].
  exists []. rewrite app_nil_r. auto.
Qed.

Lemma grows_get_heap p : grows p get_heap.
Proof. apply grows_keep. intros s a s' E. injection E as _ <-. auto. Qed.
Lemma grows_get_zero p : grows p get_zero.
Proof. apply grows_keep. intros s a s' E. injection E as _ <-. auto. Qed.
Lemma grows_get_visits p : grows p get_visits.
Proof. apply grows_keep. intros s a s' E. injection E as _ <-. auto. Qed.
Lemma grows_set_zero p b : grows p (set_zero b).
Proof. apply grows_keep. intros s a s' E. injection E as _ <-. auto. Qed.
Lemma grows_add_visit p v : grows p (add_visit v).
Proof. apply grows_keep. intros s a s' E. injection E as _ <-. auto. Qed.
Lemma grows_panic {A} p m : grows p (@panic A m).
Proof. intros s a s' E. discriminate. Qed.
Lemma grows_block {A} p : grows p (@block A).
Proof. intros s a s' E. discriminate. Qed.
Lemma grows_fuel {A} p : grows p (fun _ => @OutOfFuel A).
Proof. intros s a s' E. discriminate. Qed.

Lemma grows_weaken {A} p q (m : M A) : prefix p q -> grows q m -> grows p m.
Proof.
  intros Hpq Hm s a s' E. destruct (Hm _ _ _ E) as (H & K & n & En & F).
  split; [exact H|]. split; [exact K|]. exists n. split; [exact En|].
  eapply Forall_impl; [|exact F]. intros e He. eapply prefix_trans; eauto.
Qed.

Lemma grows_for p lo k body : (forall i, grows p (body i)) -> grows p (for_ lo k body).
Proof.
  revert lo. induction k; intros lo H; simpl.
  - apply grows_ret.
  - apply grows_bind; auto.
Qed.

Create HintDb grows.
#[local] Hint Resolve grows_ret grows_add_err grows_get_heap grows_get_zero grows_get_visits
  grows_set_zero grows_add_visit grows_panic grows_block grows_fuel grows_for
  prefix_refl prefix_padd : grows.

Ltac grow :=
  repeat match goal with
  | |- forall _, _ => intro
  | |- grows _ (let _ := _ in _) => cbv zeta
  | |- grows _ (for_ _ _ _) => apply grows_for
  | |- grows _ (bind _ _) => apply grows_bind; [|intro]
  | |- grows _ (if ?b then _ else _) => destruct b
  | |- grows _ (match ?x with _ => _ end) => destruct x
  | |- grows _ (fun _ => OutOfFuel) => apply grows_fuel
  end; eauto with grows.

Section Grows.
Variable structs : string -> list field.
Variable teq : val -> val -> bool.
Variable conf : Config.
Variable cmp : value -> value -> path -> M unit.
Variable eqv : value -> value -> M bool.
Hypothesis Hcmp : forall got want q, grows q (cmp got want q).
Hypothesis Heqv : forall p got want, grows p (eqv got want).

Lemma grows_cmp p q got want : prefix p q -> grows p (cmp got want q).
Proof. intros H. eapply grows_weaken; [exact H|apply Hcmp]. Qed.
#[local] Hint Resolve grows_cmp Heqv : grows.

Lemma grows_Recv p n r : grows p (Recv structs n r).
Proof.
  intros s a s' E.
  unfold Recv, bind, get_heap, set_heap, ret, block, panic in E.
  repeat match type of E with
  | context [match ?x with _ => _ end] => destruct x eqn:?; try discriminate
  end;
  injection E as <- <-; simpl;
  (split; [try apply heap_le_refl; eapply heap_le_update_chan; eassumption|]);
  (split; [intros Hn; try reflexivity; exfalso; eapply Hn; eassumption
          | exists []; rewrite app_nil_r; auto]).
Qed.
#[local] Hint Resolve grows_Recv : grows.

Lemma grows_compareValidity p got want : grows p (compareValidity got want p).
Proof. unfold compareValidity. grow. Qed.
Lemma grows_compareType p g w : grows p (compareType g w p).
Proof. unfold compareType. grow. Qed.
Lemma grows_checkVisited p g w : grows p (checkVisited g w).
Proof. unfold checkVisited. grow. Qed.
Lemma grows_compareZero p g w : grows p (compareZero g w p).
Proof. unfold compareZero. grow. Qed.
Lemma grows_scan_pool p g iw pool : grows p (scan_pool eqv g iw pool).
Proof. induction pool; simpl; grow. Qed.
#[local] Hint Resolve grows_scan_pool : grows.
Lemma grows_match_loop p g w i k idx : grows p (match_loop eqv g w p i k idx).
Proof.
  revert i idx. induction k; intros; simpl; grow.
Qed.
#[local] Hint Resolve grows_match_loop : grows.
Lemma grows_compareArray p g w : grows p (compareArray conf cmp eqv g w p).
Proof. unfold compareArray, compareArrayIgnoreOrder. grow. Qed.
#[local] Hint Resolve grows_compareArray : grows.
Lemma grows_compareSlice p g w : grows p (compareSlice conf cmp eqv g w p).
Proof. unfold compareSlice. grow. Qed.
Lemma grows_compareInterface p g w : grows p (compareInterface cmp g w p).
Proof. unfold compareInterface. grow. Qed.
Lemma grows_comparePointer p g w : grows p (comparePointer cmp g w p).
Proof. unfold comparePointer. grow. Qed.
Lemma grows_compareStruct p g w : grows p (compareStruct structs teq conf cmp g w p).
Proof. unfold compareStruct. grow. Qed.
Lemma grows_map_loop p q g w keys : prefix p q -> grows p (map_loop cmp g w q keys).
Proof.
  intros Hpq. induction keys; simpl; grow.
  all: try (first [apply grows_cmp | apply grows_add_err]; simpl;
            eapply prefix_trans; [exact Hpq|apply prefix_padd]).
Qed.
#[local] Hint Resolve grows_map_loop : grows.
Lemma grows_compareMap p g w : grows p (compareMap cmp g w p).
Proof. unfold compareMap. grow. Qed.
Lemma grows_compareFunc p g w : grows p (compareFunc g w p).
Proof. unfold compareFunc. grow. Qed.
Lemma grows_compareString p g w : grows p (compareString g w p).
Proof. unfold compareString. grow. Qed.
Lemma grows_compareChan p n g w : grows p (compareChan structs cmp n g w p).
Proof. unfold compareChan. grow. Qed.
Lemma grows_compareInterfaceValue p g w : grows p (compareInterfaceValue g w p).
Proof. unfold compareInterfaceValue. grow. Qed.
#[local] Hint Resolve grows_compareValidity grows_compareType grows_checkVisited
  grows_compareZero grows_compareSlice grows_compareInterface grows_comparePointer
  grows_compareStruct grows_compareMap grows_compareFunc grows_compareString
  grows_compareChan grows_compareInterfaceValue : grows.
Lemma grows_compareKind p n g w : grows p (compareKind structs teq conf cmp eqv n g w p).
Proof. unfold compareKind. grow. Qed.
#[local] Hint Resolve grows_compareKind : grows.
Lemma grows_compare_step p n got want :
  grows p (compare_step structs teq conf cmp eqv n got want p).
Proof. unfold compare_step. grow. Qed.
End Grows.

Lemma grows_equals_with cmp p got want :
  (forall q got want, grows q (cmp got want q)) -> grows p (equals_with cmp got want).
Proof.
  intros Hc s a s' E. unfold equals_with in E.
  destruct (cmp got want [] _) as [u s1| | |] eqn:Ec; try discriminate.
  injection E as <- <-. simpl.
  destruct (Hc _ _ _ _ _ _ Ec) as (Hh & K & _). simpl in Hh, K.
  split; [exact Hh|]. split; [exact K|]. exists []. rewrite app_nil_r. auto.
Qed.

Lemma grows_compare structs teq conf fuel : forall got want p,
  grows p (compare structs teq conf fuel got want p).
Proof.
  induction fuel; intros; simpl.
  - apply grows_fuel.
  - apply grows_compare_step; auto.
    intros. apply grows_equals_with. auto.
Qed.

Lemma bind_ok {A B} (m : M A) (k : A -> M B) s b s' :
  bind m k s = Ok b s' -> exists a s1, m s = Ok a s1 /\ k a s1 = Ok b s'.
Proof. unfold bind. destruct (m s); try discriminate. eauto. Qed.

Lemma map_loop_spec cmp g w q :
  (forall q got want, grows q (cmp got want q)) ->
  forall keys s s', map_loop cmp g w q keys s = Ok tt s' ->
    heap_le (sheap s) (sheap s')
    /\ (forall k, In k keys -> MapIndex (sheap s) g k = None ->
         In (ValidityError None (MapIndex (sheap s) w k) (padd q (MapNode (rdata k)))) (errs s'))
    /\ exists new, errs s' = errs s ++ new
       /\ Forall (fun e => exists k, In k keys /\ prefix (padd q (MapNode (rdata k))) (err_path e)) new.
Proof.
  intros Hc. induction keys as [|key keys IH]; intros s s' E; simpl in E.
  - injection E as <-. split; [apply heap_le_refl|]. split; [intros k []|].
    exists []. rewrite app_nil_r. auto.
  - unfold bind at 1, get_heap in E. cbv zeta in E.
    set (q' := padd q (MapNode (rdata key))) in E.
    destruct (bind_ok _ _ _ _ _ E) as (u & s1 & E1 & E2); clear E; rename E2 into E.
    assert (G1 : heap_le (sheap s) (sheap s1) /\ exists n1, errs s1 = errs s ++ n1
                 /\ Forall (fun e => prefix q' (err_path e)) n1).
    { revert E1. destruct (MapIndex (sheap s) g key) as [x|];
        [destruct (MapIndex (sheap s) w key) as [y|]|]; intros E1';
        [destruct (Hc _ _ _ _ _ _ E1') as (X & _ & Y) | |];
        [|destruct (grows_add_err q' (ValidityError _ _ q') (prefix_refl q') _ _ _ E1') as (X & _ & Y)..];
        exact (conj X Y). }
    destruct G1 as (Hle1 & n1 & En1 & F1).
    destruct (IH _ _ E) as (Hle2 & Hin & n2 & En2 & F2).
    split; [eapply heap_le_trans; eauto|].
    split.
    + intros k [<-|Hk] Hnone.
      * rewrite Hnone in E1. unfold add_err in E1. injection E1 as _ <-.
        rewrite En2. simpl. apply in_or_app. left. apply in_or_app. right. left. reflexivity.
      * rewrite <- (MapIndex_le _ _ g k Hle1) in Hnone.
        rewrite <- (MapIndex_le _ _ w k Hle1). apply Hin; auto.
    + exists (n1 ++ n2). rewrite En2, En1, app_assoc. split; [reflexivity|].
      apply Forall_app. split.
      * eapply Forall_impl; [|exact F1]. intros e He. exists key. split; [left; reflexivity|exact He].
      * eapply Forall_impl; [|exact F2]. intros e (k & Hk & He). exists k. split; [right; exact Hk|exact He].
Qed.

(** The run of [map_loop], key by key: a chain of states, one step per key,
    where a key found on both sides has its two values compared and a key
    missing on either side gives one [Validity] record. *)
Lemma map_loop_trace cmp g w q :
  (forall q got want, grows q (cmp got want q)) ->
  forall keys s s', map_loop cmp g w q keys s = Ok tt s' ->
  exists ss, nth_error ss 0 = Some s /\ nth_error ss (length keys) = Some s' /\
    forall i k, nth_error keys i = Some k ->
      exists si si', nth_error ss i = Some si /\ nth_error ss (S i) = Some si' /\
        match MapIndex (sheap s) g k, MapIndex (sheap s) w k with
        | Some vg, Some vw => cmp (Some vg) (Some vw) (padd q (MapNode (rdata k))) si = Ok tt si'
        | vg, vw => si' = mkstate (sheap si) (errs si ++ [ValidityError vg vw (padd q (MapNode (rdata k)))])
                                  (visits si) (zero si)
        end.
Proof.
  intros Hc. induction keys as [|key keys IH]; intros s s' E; simpl in E.
  - injection E as <-. exists [s]. split; [reflexivity|]. split; [reflexivity|].
    intros i k Hk. destruct i; discriminate.
  - unfold bind at 1, get_heap in E. cbv zeta in E.
    destruct (bind_ok _ _ _ _ _ E) as (u & s1 & E1 & E2); clear E.
    destruct u. destruct (IH _ _ E2) as (ss & H0 & Hn & Hi).
    assert (Hle : heap_le (sheap s) (sheap s1)).
    { revert E1. destruct (MapIndex (sheap s) g key) as [x|];
        [destruct (MapIndex (sheap s) w key) as [y|]|]; intros E1';
        [exact (proj1 (Hc _ _ _ _ _ _ E1'))
        |exact (proj1 (grows_add_err _ _ (prefix_refl _) _ _ _ E1'))..]. }
    exists (s :: ss). split; [reflexivity|]. split; [exact Hn|].
    intros [|i] k Hk.
    + injection Hk as <-. exists s, s1. split; [reflexivity|]. split; [exact H0|].
      revert E1. destruct (MapIndex (sheap s) g key) as [x|];
        [destruct (MapIndex (sheap s) w key) as [y|]|]; intros E1'; [exact E1'| |];
        unfold add_err in E1'; injection E1' as <-; reflexivity.
    + destruct (Hi i k Hk) as (si & si' & Hsi & Hsi' & Hm). exists si, si'.
      split; [exact Hsi|]. split; [exact Hsi'|].
      rewrite <- (MapIndex_le _ _ g k Hle), <- (MapIndex_le _ _ w k Hle). exact Hm.
Qed.

Import Matching Lockstep.

(** First-fit matching: soundness, completeness and symmetry. *)

Lemma filter_seq_skip q lo len :
  filter (fun x => q x && negb (Nat.eqb x lo)) (seq (S lo) len) = filter q (seq (S lo) len).
Proof.
  apply filter_ext_in. intros x Hx. apply in_seq in Hx.
  destruct (Nat.eqb_spec x lo); [lia|]. rewrite andb_true_r. reflexivity.
Qed.

Lemma pick_some f q : forall len lo c l',
  pick f (filter q (seq lo len)) = Some (c, l') ->
  lo <= c < lo + len /\ q c = true /\ f c = true
  /\ (forall x, lo <= x < c -> q x = true -> f x = false)
  /\ l' = filter (fun x => q x && negb (Nat.eqb x c)) (seq lo len).
Proof.
  induction len as [|len IH]; intros lo c l' E; [discriminate|].
  simpl in E. destruct (q lo) eqn:Hq.
  - simpl in E. destruct (f lo) eqn:Hf.
    + injection E as <- <-. split; [lia|]. split; [exact Hq|]. split; [exact Hf|].
      split; [intros; lia|]. simpl. rewrite Hq, Nat.eqb_refl. simpl.
      rewrite filter_seq_skip. reflexivity.
    + destruct (pick f (filter q (seq (S lo) len))) as [[c0 r0]|] eqn:E2; [|discriminate].
      injection E as <- <-.
      destruct (IH _ _ _ E2) as (H1 & H2 & H3 & H4 & H5).
      split; [lia|]. split; [exact H2|]. split; [exact H3|].
      split.
      * intros x Hx Hqx. destruct (Nat.eqb_spec x lo) as [->|]; [exact Hf|]. apply H4; [lia|exact Hqx].
      * simpl. rewrite Hq. destruct (Nat.eqb_spec lo c0); [lia|]. simpl. rewrite H5. reflexivity.
  - destruct (IH _ _ _ E) as (H1 & H2 & H3 & H4 & H5).
    split; [lia|]. split; [exact H2|]. split; [exact H3|].
    split.
    + intros x Hx Hqx. destruct (Nat.eqb_spec x lo) as [->|]; [congruence|]. apply H4; [lia|exact Hqx].
    + simpl. rewrite Hq. simpl. exact H5.
Qed.

Lemma pick_none f q : forall len lo,
  pick f (filter q (seq lo len)) = None ->
  forall x, lo <= x < lo + len -> q x = true -> f x = false.
Proof.
  induction len as [|len IH]; intros lo E x Hx Hqx; [lia|].
  simpl in E. destruct (q lo) eqn:Hq.
  - simpl in E. destruct (f lo) eqn:Hf; [discriminate|].
    destruct (pick f (filter q (seq (S lo) len))) as [[c0 r0]|] eqn:E2; [discriminate|].
    destruct (Nat.eqb_spec x lo) as [->|]; [exact Hf|]. apply (IH _ E2); [lia|exact Hqx].
  - destruct (Nat.eqb_spec x lo) as [->|]; [congruence|]. apply (IH _ E); [lia|exact Hqx].
Qed.


Lemma pool_of_add taken c n :
  filter (fun x => negb (existsb (Nat.eqb x) taken) && negb (Nat.eqb x c)) (seq 0 n)
  = pool_of (taken ++ [c]) n.
Proof.
  unfold pool_of. apply filter_ext. intros x. rewrite existsb_app. simpl.
  rewrite orb_false_r, negb_orb. reflexivity.
Qed.

Lemma existsb_In x l : existsb (Nat.eqb x) l = true <-> In x l.
Proof.
  rewrite existsb_exists. split.
  - intros (y & Hy & E). apply Nat.eqb_eq in E. subst. exact Hy.
  - intros H. exists x. split; [exact H|apply Nat.eqb_refl].
Qed.


Lemma greedy_sound e n : forall k i taken cs,
  length taken = i -> i + k = n ->
  greedy e i k (pool_of taken n) = Some cs ->
  length cs = k
  /\ forall r, r < k ->
     let c := nth r cs 0 in
     c < n /\ e (i + r) c = true
     /\ ~ In c (taken ++ firstn r cs)
     /\ (forall x, x < c -> e (i + r) x = true -> In x (taken ++ firstn r cs)).
Proof.
  induction k as [|k IH]; intros i taken cs Hl Hk E.
  - injection E as <-. split; [reflexivity|]. intros; lia.
  - simpl in E. destruct (pick (e i) (pool_of taken n)) as [[c pool']|] eqn:Ep; [|discriminate].
    destruct (greedy e (S i) k pool') as [cs'|] eqn:Eg; [|discriminate].
    injection E as <-.
    unfold pool_of in Ep. destruct (pick_some _ _ _ _ _ _ Ep) as (H1 & H2 & H3 & H4 & H5).
    rewrite H5, pool_of_add in Eg.
    destruct (IH (S i) (taken ++ [c]) cs') as (L & P);
      [rewrite length_app; simpl; lia | lia | exact Eg |].
    split; [simpl; rewrite L; reflexivity|].
    intros r Hr. destruct r as [|r].
    + simpl. rewrite Nat.add_0_r, app_nil_r. split; [lia|]. split; [exact H3|].
      split.
      * apply negb_true_iff in H2. intros Hin. apply existsb_In in Hin. congruence.
      * intros x Hx Hex. destruct (existsb (Nat.eqb x) taken) eqn:Hin; [apply existsb_In; exact Hin|].
        rewrite (H4 x) in Hex; [discriminate|lia|rewrite Hin; reflexivity].
    + destruct (P r) as (Q1 & Q2 & Q3 & Q4); [lia|].
      simpl. replace (i + S r) with (S i + r) by lia. rewrite <- app_assoc in Q3, Q4. simpl in Q3, Q4.
      split; [exact Q1|]. split; [exact Q2|]. split; [exact Q3|exact Q4].
Qed.

Lemma pool_of_nil n : pool_of [] n = seq 0 n.
Proof. unfold pool_of. simpl. apply filter_true. Qed.

Lemma greedy_complete e n sigma : RG e n sigma ->
  forall k i, i + k = n ->
  greedy e i k (pool_of (map sigma (seq 0 i)) n) = Some (map sigma (seq i k)).
Proof.
  intros HR. induction k as [|k IH]; intros i Hk; [reflexivity|].
  destruct (HR i) as (R1 & R2 & R3 & R4); [lia|].
  assert (Hnot : existsb (Nat.eqb (sigma i)) (map sigma (seq 0 i)) = false).
  { apply not_true_iff_false. intros Hin. apply existsb_In, in_map_iff in Hin.
    destruct Hin as (r' & Hr' & Hin). apply in_seq in Hin. apply (R3 r'); [lia|exact Hr']. }
  simpl. unfold pool_of at 1.
  destruct (pick (e i) (filter (fun x => negb (existsb (Nat.eqb x) (map sigma (seq 0 i)))) (seq 0 n)))
    as [[c l']|] eqn:Ep.
  - destruct (pick_some _ _ _ _ _ _ Ep) as (H1 & H2 & H3 & H4 & H5).
    assert (Hc : c = sigma i).
    { destruct (Nat.lt_trichotomy c (sigma i)) as [Hlt|[Heq|Hgt]]; [|exact Heq|].
      - destruct (R4 c Hlt H3) as (r' & Hr' & Hs).
        apply negb_true_iff in H2. exfalso. apply (proj2 (not_true_iff_false _) H2).
        apply existsb_In, in_map_iff. exists r'. split; [exact Hs|apply in_seq; lia].
      - rewrite (H4 (sigma i)) in R2; [discriminate|lia|rewrite Hnot; reflexivity]. }
    subst c. rewrite H5, pool_of_add.
    replace (map sigma (seq 0 i) ++ [sigma i]) with (map sigma (seq 0 (S i)))
      by (rewrite seq_S, map_app; reflexivity).
    rewrite IH by lia. reflexivity.
  - exfalso. rewrite (pick_none _ _ _ _ Ep (sigma i)) in R2; [discriminate|lia|].
    rewrite Hnot. reflexivity.
Qed.

Section Inverse.
Variable e : nat -> nat -> bool.
Variable n : nat.
Variable sigma : nat -> nat.
Hypothesis HR : RG e n sigma.

Lemma sigma_inj r1 r2 : r1 < n -> r2 < n -> sigma r1 = sigma r2 -> r1 = r2.
Proof.
  intros H1 H2 E. destruct (Nat.lt_trichotomy r1 r2) as [Hlt|[Heq|Hgt]]; [|exact Heq|].
  - exfalso. apply (proj1 (proj2 (proj2 (HR r2 H2))) r1 Hlt). exact E.
  - exfalso. apply (proj1 (proj2 (proj2 (HR r1 H1))) r2 Hgt). congruence.
Qed.

Lemma sigma_onto c : c < n -> exists r, r < n /\ sigma r = c.
Proof.
  intros Hc.
  assert (Hnth : forall i, i < n -> nth i (map sigma (seq 0 n)) 0 = sigma i).
  { intros i Hi. rewrite (nth_indep _ 0 (sigma 0)) by (rewrite length_map, length_seq; lia).
    rewrite map_nth, seq_nth by lia. reflexivity. }
  assert (Hnd : NoDup (map sigma (seq 0 n))).
  { apply (NoDup_nth _ 0). rewrite length_map, length_seq. intros i j Hi Hj E.
    rewrite !Hnth in E by assumption. apply sigma_inj; assumption. }
  assert (Hincl : incl (seq 0 n) (map sigma (seq 0 n))).
  { apply NoDup_length_incl; [exact Hnd| rewrite length_map; lia|].
    intros x Hx. apply in_map_iff in Hx. destruct Hx as (r & <- & Hr). apply in_seq in Hr.
    apply in_seq. destruct (HR r) as (R1 & _); lia. }
  assert (Hin : In c (map sigma (seq 0 n))) by (apply Hincl, in_seq; lia).
  apply in_map_iff in Hin. destruct Hin as (r & Hr & Hin). apply in_seq in Hin.
  exists r. split; [lia|exact Hr].
Qed.


Lemma tau_spec c : c < n -> tau n sigma c < n /\ sigma (tau n sigma c) = c.
Proof.
  intros Hc. unfold tau.
  destruct (find (fun r => Nat.eqb (sigma r) c) (seq 0 n)) as [r|] eqn:Ef.
  - apply find_some in Ef. destruct Ef as (Hin & E). apply in_seq in Hin. apply Nat.eqb_eq in E.
    split; [lia|exact E].
  - destruct (sigma_onto c Hc) as (r & Hr & E).
    assert (Hf := find_none _ _ Ef r (proj2 (in_seq _ _ _) (conj (Nat.le_0_l r) Hr))).
    simpl in Hf. rewrite E, Nat.eqb_refl in Hf. discriminate.
Qed.

Lemma tau_sigma r : r < n -> tau n sigma (sigma r) = r.
Proof.
  intros Hr. destruct (HR r Hr) as (R1 & _).
  destruct (tau_spec (sigma r) R1) as (T1 & T2). apply sigma_inj; assumption.
Qed.

Lemma RG_inverse : RG (fun i j => e j i) n (tau n sigma).
Proof.
  intros c Hc. destruct (tau_spec c Hc) as (T1 & T2).
  destruct (HR (tau n sigma c) T1) as (R1 & R2 & R3 & R4).
  split; [exact T1|]. split; [rewrite T2 in R2; exact R2|]. split.
  - intros c' Hc' E. destruct (tau_spec c' ltac:(lia)) as (_ & T2').
    rewrite E, T2 in T2'. lia.
  - intros x Hx Hex. assert (Hxn : x < n) by lia.
    destruct (HR x Hxn) as (S1 & S2 & S3 & S4).
    exists (sigma x). split; [|apply tau_sigma; exact Hxn].
    destruct (Nat.lt_trichotomy (sigma x) c) as [Hlt|[Heq|Hgt]]; [exact Hlt| |].
    + exfalso. rewrite <- Heq, tau_sigma in Hx by exact Hxn. lia.
    + exfalso. destruct (S4 c Hgt Hex) as (r' & Hr' & E).
      rewrite <- E, tau_sigma in Hx by lia. lia.
Qed.

End Inverse.

Lemma greedy_RG e n cs : greedy e 0 n (seq 0 n) = Some cs -> RG e n (fun r => nth r cs 0).
Proof.
  intros E. rewrite <- pool_of_nil in E.
  destruct (greedy_sound e n n 0 [] cs eq_refl eq_refl E) as (L & P).
  intros r Hr. destruct (P r Hr) as (P1 & P2 & P3 & P4). simpl in P1, P2, P3, P4.
  split; [exact P1|]. split; [exact P2|]. split.
  - intros r' Hr' E'. apply P3. rewrite <- E'.
    replace (nth r' cs 0) with (nth r' (firstn r cs) 0)
      by (rewrite nth_firstn; destruct (Nat.ltb_spec r' r); [reflexivity|lia]).
    apply nth_In. rewrite length_firstn. lia.
  - intros x Hx Hex. destruct (In_nth _ _ 0 (P4 x Hx Hex)) as (r' & Hr' & E').
    rewrite length_firstn in Hr'. exists r'. split; [lia|].
    rewrite nth_firstn in E'. destruct (Nat.ltb_spec r' r); [exact E'|lia].
Qed.

Theorem greedy_transpose e n cs :
  greedy e 0 n (seq 0 n) = Some cs ->
  exists cs', greedy (fun i j => e j i) 0 n (seq 0 n) = Some cs'.
Proof.
  intros E. pose proof (greedy_RG e n cs E) as HR.
  pose proof (RG_inverse e n _ HR) as HT.
  exists (map (tau n (fun r => nth r cs 0)) (seq 0 n)).
  pose proof (greedy_complete _ n _ HT n 0 eq_refl) as G. simpl in G.
  rewrite pool_of_nil in G. exact G.
Qed.

(** Symmetry of the equality tests. *)
Lemma ty_eqb_sym a b : ty_eqb a b = ty_eqb b a.
Proof. unfold ty_eqb. destruct (ty_eq_dec a b), (ty_eq_dec b a); congruence. Qed.

Lemma ty_eqb_true a b : ty_eqb a b = true -> a = b.
Proof. unfold ty_eqb. destruct (ty_eq_dec a b); congruence. Qed.

Lemma loc_eqb_eq a b : loc_eqb a b = true <-> a = b.
Proof.
  destruct a as [a pa], b as [b pb]. unfold loc_eqb. simpl.
  rewrite andb_true_iff, Nat.eqb_eq.
  destruct (list_eq_dec Nat.eq_dec pa pb); split; intros H; try (destruct H; congruence);
    try (injection H; intros; subst; tauto).
Qed.

Lemma loc_eqb_sym a b : loc_eqb a b = loc_eqb b a.
Proof.
  destruct (loc_eqb a b) eqn:E1, (loc_eqb b a) eqn:E2; try reflexivity.
  - apply loc_eqb_eq in E1. subst. rewrite loc_eqb_refl in E2. discriminate.
  - apply loc_eqb_eq in E2. subst. rewrite loc_eqb_refl in E1. discriminate.
Qed.

Lemma opt_eqb_sym {A} (eqb : A -> A -> bool) :
  (forall a b, eqb a b = eqb b a) -> forall x y, opt_eqb eqb x y = opt_eqb eqb y x.
Proof. intros H [a|] [b|]; simpl; auto. Qed.

Lemma path_ltb_irrefl p : path_ltb p p = false.
Proof. induction p; simpl; [reflexivity|]. rewrite Nat.ltb_irrefl, Nat.eqb_refl, IHp. reflexivity. Qed.

Lemma path_ltb_total : forall p q, p <> q -> path_ltb q p = negb (path_ltb p q).
Proof.
  induction p as [|i p IH]; intros [|j q] Hne; simpl; try reflexivity; [congruence|].
  destruct (Nat.lt_trichotomy i j) as [Hlt|[->|Hgt]].
  - rewrite (proj2 (Nat.ltb_lt i j) Hlt). destruct (Nat.ltb_spec j i); [lia|].
    destruct (Nat.eqb_spec j i); [lia|]. reflexivity.
  - rewrite Nat.ltb_irrefl, Nat.eqb_refl. simpl. apply IH. congruence.
  - rewrite (proj2 (Nat.ltb_lt j i) Hgt). destruct (Nat.ltb_spec i j); [lia|].
    destruct (Nat.eqb_spec i j); [lia|]. reflexivity.
Qed.

Lemma loc_ltb_total a b : a <> b -> loc_ltb b a = negb (loc_ltb a b).
Proof.
  destruct a as [a pa], b as [b pb]. unfold loc_ltb. simpl. intros Hne.
  destruct (Nat.lt_trichotomy a b) as [Hlt|[->|Hgt]].
  - rewrite (proj2 (Nat.ltb_lt a b) Hlt). destruct (Nat.ltb_spec b a); [lia|].
    destruct (Nat.eqb_spec b a); [lia|]. reflexivity.
  - rewrite Nat.ltb_irrefl, Nat.eqb_refl. simpl. apply path_ltb_total. congruence.
  - rewrite (proj2 (Nat.ltb_lt b a) Hgt). destruct (Nat.ltb_spec a b); [lia|].
    destruct (Nat.eqb_spec a b); [lia|]. reflexivity.
Qed.

Lemma loc_ltb_irrefl a : loc_ltb a a = false.
Proof. unfold loc_ltb. rewrite Nat.ltb_irrefl, Nat.eqb_refl, path_ltb_irrefl. reflexivity. Qed.

Lemma canon_sym a b : canon a b = canon b a.
Proof.
  unfold canon. destruct (loc_eqb a b) eqn:E.
  - apply loc_eqb_eq in E. subst. reflexivity.
  - assert (Hne : a <> b) by (intros ->; rewrite loc_eqb_refl in E; discriminate).
    rewrite (loc_ltb_total a b Hne). destruct (loc_ltb a b); reflexivity.
Qed.

Lemma float_eqb_sym x y : float_eqb x y = float_eqb y x.
Proof. destruct x, y; simpl; auto using Z.eqb_sym. Qed.

Lemma go_eq_sym : forall x y, go_eq x y = go_eq y x.
Proof.
  fix F 1. intros x y. destruct x, y; simpl; try reflexivity.
  - destruct b, b0; reflexivity.
  - apply Z.eqb_sym.
  - apply Z.eqb_sym.
  - apply float_eqb_sym.
  - apply String.eqb_sym.
  - revert xs xs0. fix G 1. intros [|a xs] [|b ys]; simpl; try reflexivity.
    rewrite (F a b), (G xs ys). reflexivity.
  - destruct dyn as [[t u]|], dyn0 as [[t' u']|]; try reflexivity.
    rewrite ty_eqb_sym, (F u u'). reflexivity.
  - apply opt_eqb_sym, loc_eqb_sym.
  - revert fs fs0. fix G 1. intros [|a xs] [|b ys]; simpl; try reflexivity.
    rewrite (F a b), (G xs ys). reflexivity.
  - apply opt_eqb_sym, Nat.eqb_sym.
Qed.


Lemma vars_only_lookup h a b : vars_only h = true -> lookup h a = Some b -> exists vs, b = BVals vs.
Proof.
  unfold vars_only, lookup. intros Hv E.
  destruct (find _ h) as [[a' b']|] eqn:F; [|discriminate]. injection E as <-.
  apply find_some in F as [Hin _]. rewrite forallb_forall in Hv.
  specialize (Hv _ Hin). simpl in Hv. destruct b'; try discriminate. eauto.
Qed.

Lemma vars_only_no_chan h : vars_only h = true -> no_chan h.
Proof. intros Hv a buf cl E. destruct (vars_only_lookup _ _ _ Hv E). discriminate. Qed.

Lemma MapKeys_vars h r : vars_only h = true -> MapKeys h r = [].
Proof.
  intros Hv. unfold MapKeys, map_entries. destruct (rdata r); try reflexivity.
  destruct m; [|reflexivity]. destruct (lookup h n) eqn:E; [|reflexivity].
  destruct (vars_only_lookup _ _ _ Hv E) as [vs ->]. reflexivity.
Qed.

Lemma Recv_vars structs h n r s a s' :
  vars_only h = true -> sheap s = h -> Recv structs n r s <> Ok a s'.
Proof.
  intros Hv Hs. unfold Recv. destruct (rro r); [discriminate|].
  destruct (rtype r); try destruct dir; try discriminate;
  destruct (rdata r); try discriminate; destruct c; try discriminate;
  unfold bind, get_heap; simpl; rewrite Hs;
  (match goal with |- context [lookup h ?c] => destruct (lookup h c) as [b|] eqn:E end;
     [destruct (vars_only_lookup _ _ _ Hv E) as [vs ->] | ];
     intro X; simpl in X; unfold block in X; discriminate X).
Qed.

(** The matching loop of [compareArrayIgnoreOrder] computes the first-fit
    matching of the relation its [equals] calls decide. *)
Section Match.
Variable h : heap.
Variable eqv : value -> value -> M bool.
Variable ev : value -> value -> option bool.
Hypothesis Heqv : forall x y s b s', sheap s = h -> eqv x y s = Ok b s' -> s' = s /\ ev x y = Some b.

Lemma scan_pool_pick g iw (f : nat -> bool) :
  (forall j b, ev (Index h g j) iw = Some b -> f j = b) ->
  forall pool s r s', sheap s = h -> scan_pool eqv g iw pool s = Ok r s' ->
  s' = s /\ r = option_map snd (pick f pool).
Proof.
  intros Hf. induction pool as [|j rest IH]; intros s r s' Hs E.
  - simpl in E. injection E as <- <-. auto.
  - simpl in E. unfold bind at 1, get_heap in E. rewrite Hs in E.
    unfold bind at 1 in E. destruct (eqv _ _ s) as [b s1| | |] eqn:Eb; try discriminate.
    destruct (Heqv _ _ _ _ _ Hs Eb) as [-> Hev]. apply Hf in Hev. simpl. rewrite Hev.
    destruct b.
    + injection E as <- <-. auto.
    + unfold bind in E. destruct (scan_pool eqv g iw rest s) as [r1 s2| | |] eqn:E2; try discriminate.
      injection E as <- <-. destruct (IH _ _ _ Hs E2) as [-> ->]. split; [reflexivity|].
      destruct (pick f rest) as [[c r']|]; reflexivity.
Qed.

Lemma match_loop_greedy g w p (e : nat -> nat -> bool) :
  (forall i j b, ev (Index h g j) (Index h w i) = Some b -> e i j = b) ->
  forall k i pool s s', sheap s = h -> match_loop eqv g w p i k pool s = Ok tt s' ->
  sheap s' = h /\ visits s' = visits s /\ zero s' = zero s
  /\ exists new, errs s' = errs s ++ new /\ (new = [] <-> exists cs, greedy e i k pool = Some cs).
Proof.
  intros He. induction k as [|k IH]; intros i pool s s' Hs E.
  - simpl in E. injection E as <-. split; [exact Hs|]. split; [reflexivity|].
    split; [reflexivity|]. exists []. rewrite app_nil_r.
    split; [reflexivity|]. split; intros _; [eexists; reflexivity|reflexivity].
  - simpl in E. unfold bind at 1, get_heap in E. rewrite Hs in E.
    unfold bind at 1 in E.
    destruct (scan_pool eqv g (Index h w i) pool s) as [r s1| | |] eqn:E1; try discriminate.
    destruct (scan_pool_pick g (Index h w i) (e i) (fun j b H => He i j b H) pool s r s1 Hs E1)
      as [-> ->].
    simpl greedy. destruct (pick (e i) pool) as [[c pool']|]; simpl in E.
    + destruct (IH _ _ _ _ Hs E) as (H1 & H2 & H3 & new & H4 & H5).
      split; [exact H1|]. split; [exact H2|]. split; [exact H3|].
      exists new. split; [exact H4|]. rewrite H5.
      split; intros [cs Hc]; [rewrite Hc; simpl; eauto|].
      destruct (greedy e (S i) k pool'); [eauto|discriminate].
    + unfold bind, add_err in E.
      destruct ((fun H => IH _ _ _ _ H E) Hs) as (H1 & H2 & H3 & new & H4 & H5). simpl in *.
      split; [exact H1|]. split; [exact H2|]. split; [exact H3|].
      exists (NilError (Some gotNil) (Index h w i) (padd p (ArrNode i)) :: new).
      split; [rewrite H4, <- app_assoc; reflexivity|].
      split; [discriminate|intros [cs Hc]; discriminate].
Qed.
End Match.


(** Combinators of [lock]. *)
Section LockLemmas.
Variable h : heap.

Lemma lock_ret {A B} (a : A) (b : B) (Q : A -> B -> Prop) : Q a b -> lock h (ret a) (ret b) Q.
Proof.
  intros HQ s1 s2 a' b' s1' s2' H1 H2 Hv Hz E1 E2. unfold ret in *.
  injection E1 as <- <-. injection E2 as <- <-.
  do 5 (split; [assumption|]). exists [], []. rewrite !app_nil_r. tauto.
Qed.

Lemma lock_bind {A B C D} (mA : M A) (mB : M B) kA kB (Q : A -> B -> Prop) (R : C -> D -> Prop) :
  lock h mA mB Q -> (forall a b, Q a b -> lock h (kA a) (kB b) R) ->
  lock h (bind mA kA) (bind mB kB) R.
Proof.
  intros L K s1 s2 c d s1' s2' H1 H2 Hv Hz E1 E2.
  apply bind_ok in E1 as (a & t1 & Ea & Ka). apply bind_ok in E2 as (b & t2 & Eb & Kb).
  destruct (L _ _ _ _ _ _ H1 H2 Hv Hz Ea Eb) as (G1 & G2 & Gv & Gz & HQ & nA & nB & EA & EB & Hn).
  destruct (K _ _ HQ _ _ _ _ _ _ G1 G2 Gv Gz Ka Kb) as (F1 & F2 & Fv & Fz & HR & mA' & mB' & FA & FB & Hm).
  do 5 (split; [assumption|]). exists (nA ++ mA'), (nB ++ mB').
  rewrite FA, FB, EA, EB, !app_assoc. split; [reflexivity|]. split; [reflexivity|].
  split; intros X; apply app_eq_nil in X as [X1 X2];
    [apply Hn in X1; apply Hm in X2 | apply Hn in X1; apply Hm in X2]; rewrite X1, X2; reflexivity.
Qed.

Lemma lock_add_err eA eB : lock h (add_err eA) (add_err eB) (fun _ _ => True).
Proof.
  intros s1 s2 a b s1' s2' H1 H2 Hv Hz E1 E2. unfold add_err in *.
  injection E1 as <- <-. injection E2 as <- <-. simpl.
  do 5 (split; [assumption || exact I|]). exists [eA], [eB]. split; [reflexivity|].
  split; [reflexivity|]. split; discriminate.
Qed.

Lemma lock_state {A B} (mA : M A) (mB : M B) (Q : A -> B -> Prop) :
  (forall s1 s2 a b s1' s2',
    sheap s1 = h -> sheap s2 = h -> visits s1 = visits s2 -> zero s1 = zero s2 ->
    mA s1 = Ok a s1' -> mB s2 = Ok b s2' ->
    sheap s1' = h /\ sheap s2' = h /\ visits s1' = visits s2' /\ zero s1' = zero s2'
    /\ Q a b /\ errs s1' = errs s1 /\ errs s2' = errs s2) ->
  lock h mA mB Q.
Proof.
  intros K s1 s2 a b s1' s2' H1 H2 Hv Hz E1 E2.
  destruct (K _ _ _ _ _ _ H1 H2 Hv Hz E1 E2) as (G1 & G2 & Gv & Gz & HQ & EA & EB).
  do 5 (split; [assumption|]). exists [], []. rewrite !app_nil_r. tauto.
Qed.

Lemma lock_get_heap : lock h get_heap get_heap (fun a b => a = h /\ b = h).
Proof.
  apply lock_state. intros s1 s2 a b s1' s2' H1 H2 Hv Hz E1 E2. unfold get_heap in *.
  injection E1 as <- <-. injection E2 as <- <-. tauto.
Qed.

Lemma lock_get_zero : lock h get_zero get_zero (fun a b => a = b).
Proof.
  apply lock_state. intros s1 s2 a b s1' s2' H1 H2 Hv Hz E1 E2. unfold get_zero in *.
  injection E1 as <- <-. injection E2 as <- <-. tauto.
Qed.

Lemma lock_set_zero z : lock h (set_zero z) (set_zero z) (fun _ _ => True).
Proof.
  apply lock_state. intros s1 s2 a b s1' s2' H1 H2 Hv Hz E1 E2. unfold set_zero in *.
  injection E1 as <- <-. injection E2 as <- <-. simpl. tauto.
Qed.

Lemma lock_noA {A B} (mA : M A) (mB : M B) Q :
  (forall s a s', sheap s = h -> mA s <> Ok a s') -> lock h mA mB Q.
Proof. intros N s1 s2 a b s1' s2' H1 H2 Hv Hz E1 E2. exfalso. exact (N _ _ _ H1 E1). Qed.

Lemma lock_weaken {A B} (mA : M A) (mB : M B) (Q R : A -> B -> Prop) :
  lock h mA mB Q -> (forall a b, Q a b -> R a b) -> lock h mA mB R.
Proof.
  intros L W s1 s2 a b s1' s2' H1 H2 Hv Hz E1 E2.
  destruct (L _ _ _ _ _ _ H1 H2 Hv Hz E1 E2) as (G1 & G2 & Gv & Gz & HQ & rest).
  do 4 (split; [assumption|]). split; [apply W; exact HQ|exact rest].
Qed.

Lemma lock_for lo k bA bB :
  (forall i, lock h (bA i) (bB i) (fun _ _ => True)) ->
  lock h (for_ lo k bA) (for_ lo k bB) (fun _ _ => True).
Proof.
  intros Hb. revert lo. induction k as [|k IH]; intros lo; simpl.
  - apply lock_ret. exact I.
  - eapply lock_bind; [apply Hb|]. intros _ _ _. apply IH.
Qed.

End LockLemmas.


Lemma Elem_ro h r : match Elem h r with Some x => rro x = rro r | None => True end.
Proof.
  unfold Elem. destruct (rdata r); auto.
  - destruct dyn as [[t x]|]; reflexivity.
  - destruct p; auto. destruct (load h l); reflexivity.
Qed.

Lemma Index_ro h r i : match Index h r i with Some x => rro x = rro r | None => True end.
Proof.
  unfold Index. destruct (rdata r); auto.
  - destruct (nth_error xs i); reflexivity.
  - destruct hdr as [[[a off] n]|]; auto. destruct (load h _); reflexivity.
Qed.

Lemma ro_sync_Elem h g w : rro g = rro w -> ro_sync (Elem h g) (Elem h w).
Proof.
  intros E. pose proof (Elem_ro h g) as A. pose proof (Elem_ro h w) as B.
  unfold ro_sync. destruct (Elem h g), (Elem h w); congruence.
Qed.

Lemma ro_sync_Index h g w i j : rro g = rro w -> ro_sync (Index h g i) (Index h w j).
Proof.
  intros E. pose proof (Index_ro h g i) as A. pose proof (Index_ro h w j) as B.
  unfold ro_sync. destruct (Index h g i), (Index h w j); congruence.
Qed.

Lemma ro_sync_Field structs g w i :
  rtype g = rtype w -> rro g = rro w -> ro_sync (Field structs g i) (Field structs w i).
Proof.
  intros Ht E. unfold ro_sync, Field. rewrite <- Ht.
  destruct (nth_error (Fields structs (rtype g)) i) as [fd|];
    [|destruct (rdata g), (rdata w); exact I].
  destruct (rdata g); try exact I;
  repeat match goal with |- context [nth_error ?l i] => destruct (nth_error l i) end;
  destruct (rdata w); try exact I; simpl; try exact I;
  repeat match goal with |- context [nth_error ?l i] => destruct (nth_error l i) end;
  simpl; try exact I; rewrite E; reflexivity.
Qed.

Lemma ro_sync_sym x y : ro_sync x y -> ro_sync y x.
Proof. destruct x, y; simpl; auto. Qed.

Lemma repeat_visit_sym g w vs : rtype g = rtype w -> repeat_visit g w vs = repeat_visit w g vs.
Proof. intros Ht. unfold repeat_visit. rewrite Ht. destruct (raddr g), (raddr w); auto. rewrite canon_sym. reflexivity. Qed.

Lemma visit_after_sym g w vs : rtype g = rtype w -> visit_after g w vs = visit_after w g vs.
Proof. intros Ht. unfold visit_after. rewrite Ht. destruct (raddr g), (raddr w); auto. rewrite canon_sym. reflexivity. Qed.

(** Each helper of [Config.compare] run on [(g, w)] and on [(w, g)], given
    the same for the recursive call [cmp] and its [equals]. *)
Section Steps.
Variable structs : string -> list field.
Variable teq : val -> val -> bool.
Hypothesis Hteq : forall x y, teq x y = teq y x.
Variable conf : Config.
Variable h : heap.
Hypothesis Hv : vars_only h = true.
Variable cmp : value -> value -> path -> M unit.
Variable eqv : value -> value -> M bool.
Variable ev : value -> value -> option bool.
Hypothesis Hcmp : forall x y q q', ro_sync x y -> lock h (cmp x y q) (cmp y x q') (fun _ _ => True).
Hypothesis Heqv : forall x y s b s', sheap s = h -> eqv x y s = Ok b s' -> s' = s /\ ev x y = Some b.
Hypothesis Hev : forall x y b1 b2, ro_sync x y -> ev x y = Some b1 -> ev y x = Some b2 -> b1 = b2.

Ltac lk :=
  repeat first
    [ apply lock_ret; solve [auto]
    | apply lock_add_err
    | apply lock_set_zero
    | eapply lock_bind; [apply lock_add_err | intros _ _ _]
    | eapply lock_bind; [apply lock_set_zero | intros _ _ _]
    | eapply lock_bind; [apply (lock_ret _ tt tt (fun _ _ => True)); exact I | intros _ _ _]
    | eapply lock_bind; [apply lock_get_heap | intros ? ? [-> ->]] ].

Lemma lock_compareValidity got want p p' :
  lock h (compareValidity got want p) (compareValidity want got p') (fun a b => a = b).
Proof. unfold compareValidity. destruct got, want; simpl; lk. Qed.

Lemma lock_compareType g w p p' :
  lock h (compareType g w p) (compareType w g p')
    (fun a b => a = b /\ (a = true -> rtype g = rtype w)).
Proof.
  unfold compareType. rewrite (ty_eqb_sym (rtype w)).
  destruct (ty_eqb (rtype g) (rtype w)) eqn:E.
  - apply lock_ret. split; auto. intros _. apply ty_eqb_true. exact E.
  - eapply lock_bind; [apply lock_add_err|]. intros _ _ _. apply lock_ret. split; [reflexivity|discriminate].
Qed.

Lemma lock_checkVisited g w : rtype g = rtype w ->
  lock h (checkVisited g w) (checkVisited w g) (fun a b => a = b).
Proof.
  intros Ht. apply lock_state. intros s1 s2 a b s1' s2' H1 H2 Hvs Hz E1 E2.
  rewrite checkVisited_spec in E1, E2. rewrite <- (repeat_visit_sym _ _ _ Ht), <- Hvs in E2.
  destruct (repeat_visit g w (visits s1)).
  - injection E1 as <- <-. injection E2 as <- <-. tauto.
  - injection E1 as <- <-. injection E2 as <- <-. simpl.
    rewrite <- (visit_after_sym _ _ _ Ht), Hvs. tauto.
Qed.

Lemma lock_compareZero g w p p' : lock h (compareZero g w p) (compareZero w g p') (fun _ _ => True).
Proof. unfold compareZero. destruct (IsZero (rdata g)), (IsZero (rdata w)); simpl; lk. Qed.

Lemma lock_compareInterfaceValue g w p p' :
  lock h (compareInterfaceValue g w p) (compareInterfaceValue w g p') (fun _ _ => True).
Proof. unfold compareInterfaceValue. rewrite (go_eq_sym (rdata w)). destruct (go_eq _ _); lk. Qed.

Lemma lock_compareString g w p p' :
  lock h (compareString g w p) (compareString w g p') (fun _ _ => True).
Proof.
  unfold compareString. destruct (rdata g), (rdata w); lk.
  rewrite (String.eqb_sym s0). destruct (String.eqb s s0); lk.
Qed.

Lemma lock_compareFunc g w p p' :
  lock h (compareFunc g w p) (compareFunc w g p') (fun _ _ => True).
Proof. unfold compareFunc. rewrite (orb_comm (negb (IsNil (rdata w)))). destruct (_ || _); lk. Qed.

Lemma lock_compareChan n g w p p' :
  lock h (compareChan structs cmp n g w p) (compareChan structs cmp n w g p') (fun _ _ => True).
Proof.
  unfold compareChan. lk. rewrite (Nat.eqb_sym (Len h w)).
  destruct (Len h g =? Len h w) eqn:E; simpl; [|lk].
  apply Nat.eqb_eq in E. rewrite <- E. destruct (Len h g) as [|k]; simpl; [lk|].
  apply lock_noA. intros s a s' Hs X.
  apply bind_ok in X as (u & s1 & X & _). apply bind_ok in X as (r & s2 & X & _).
  exact (Recv_vars structs h n g s r s2 Hv Hs X).
Qed.

Lemma lock_compareMap g w p p' :
  lock h (compareMap cmp g w p) (compareMap cmp w g p') (fun _ _ => True).
Proof.
  unfold compareMap. rewrite (opt_eqb_sym _ loc_eqb_sym (Pointer (rdata w))).
  destruct (opt_eqb _ _ _); [lk|].
  destruct (IsNil (rdata g)), (IsNil (rdata w)); simpl; lk;
  rewrite (Nat.eqb_sym (Len h w)); destruct (Len h g =? Len h w); simpl; lk;
  rewrite !MapKeys_vars by exact Hv; simpl; lk.
Qed.

Lemma lock_compareInterface g w p p' : rro g = rro w ->
  lock h (compareInterface cmp g w p) (compareInterface cmp w g p') (fun _ _ => True).
Proof.
  intros Hro. unfold compareInterface.
  destruct (IsNil (rdata g)), (IsNil (rdata w)); simpl; lk;
  apply Hcmp, ro_sync_Elem, Hro.
Qed.

Lemma lock_comparePointer g w p p' : rro g = rro w ->
  lock h (comparePointer cmp g w p) (comparePointer cmp w g p') (fun _ _ => True).
Proof.
  intros Hro. unfold comparePointer. rewrite (opt_eqb_sym _ loc_eqb_sym (Pointer (rdata w))).
  destruct (opt_eqb _ _ _); lk. apply Hcmp, ro_sync_Elem, Hro.
Qed.

Lemma lock_compareArrayIgnoreOrder g w p p' : rro g = rro w -> Len h g = Len h w ->
  lock h (compareArrayIgnoreOrder eqv g w p) (compareArrayIgnoreOrder eqv w g p') (fun _ _ => True).
Proof.
  intros Hro HL. unfold compareArrayIgnoreOrder.
  eapply lock_bind; [apply lock_get_heap|]. intros ? ? [-> ->].
  intros s1 s2 a b s1' s2' H1 H2 Hvs Hz E1 E2. destruct a, b.
  set (e := fun i j => match ev (Index h g j) (Index h w i) with
                       | Some b => b
                       | None => match ev (Index h w i) (Index h g j) with Some b => b | None => false end
                       end).
  assert (HeA : forall i j b, ev (Index h g j) (Index h w i) = Some b -> e i j = b).
  { intros i j b E. unfold e. rewrite E. reflexivity. }
  assert (HeB : forall i j b, ev (Index h w j) (Index h g i) = Some b -> (fun i j => e j i) i j = b).
  { intros i j b E. unfold e. destruct (ev (Index h g i) (Index h w j)) eqn:E'.
    - eapply Hev; [| exact E' | exact E]. apply ro_sync_Index. exact Hro.
    - rewrite E. reflexivity. }
  rewrite HL in E1. rewrite <- HL in E2.
  destruct (match_loop_greedy h eqv ev Heqv g w p e HeA _ _ _ _ _ H1 E1)
    as (A1 & A2 & A3 & nA & A4 & A5).
  destruct (match_loop_greedy h eqv ev Heqv w g p' (fun i j => e j i) HeB _ _ _ _ _ H2 E2)
    as (B1 & B2 & B3 & nB & B4 & B5).
  split; [exact A1|]. split; [exact B1|]. split; [congruence|]. split; [congruence|].
  split; [exact I|]. exists nA, nB. split; [exact A4|]. split; [exact B4|].
  rewrite A5, B5, <- HL. split; intros [cs Hc].
  - exact (greedy_transpose e _ cs Hc).
  - exact (greedy_transpose (fun i j => e j i) _ cs Hc).
Qed.

Lemma lock_compareArray g w p p' : rro g = rro w ->
  lock h (compareArray conf cmp eqv g w p) (compareArray conf cmp eqv w g p') (fun _ _ => True).
Proof.
  intros Hro. unfold compareArray. lk. rewrite (Nat.eqb_sym (Len h w)).
  destruct (Len h g =? Len h w) eqn:E; simpl; [|lk].
  apply Nat.eqb_eq in E. destruct (IgnoreArrayOrder conf).
  - apply lock_compareArrayIgnoreOrder; assumption.
  - rewrite E. apply lock_for. intros i. lk. apply Hcmp, ro_sync_Index, Hro.
Qed.

Lemma lock_compareSlice g w p p' : rro g = rro w ->
  lock h (compareSlice conf cmp eqv g w p) (compareSlice conf cmp eqv w g p') (fun _ _ => True).
Proof.
  intros Hro. unfold compareSlice. rewrite (opt_eqb_sym _ loc_eqb_sym (Pointer (rdata w))).
  destruct (opt_eqb _ _ _); [lk|].
  destruct (IsNil (rdata g)), (IsNil (rdata w)); simpl;
    first [apply lock_compareArray, Hro | apply lock_add_err].
Qed.

Lemma lock_compareStruct g w p p' : rtype g = rtype w -> rro g = rro w ->
  lock h (compareStruct structs teq conf cmp g w p) (compareStruct structs teq conf cmp w g p')
    (fun _ _ => True).
Proof.
  intros Ht Hro. unfold compareStruct.
  assert (Hs : structIsTime g = structIsTime w) by (unfold structIsTime; rewrite Ht; reflexivity).
  rewrite Hs, Hro. destruct (structIsTime w && negb (rro w)).
  - rewrite (Hteq (rdata w)). destruct (teq _ _); lk.
  - cbv zeta. rewrite Ht. apply lock_for. intros i.
    destruct (nth_error (Fields structs (rtype w)) i) as [f|]; [|lk].
    destruct (_ && String.eqb _ "-"%string); [lk|].
    destruct (_ && String.eqb _ "+"%string); lk;
      apply Hcmp, ro_sync_Field; assumption.
Qed.

Lemma lock_compareKind n g w p p' : rtype g = rtype w -> rro g = rro w ->
  lock h (compareKind structs teq conf cmp eqv n g w p)
         (compareKind structs teq conf cmp eqv n w g p') (fun _ _ => True).
Proof.
  intros Ht Hro. unfold compareKind. rewrite <- Ht.
  destruct (kind_of (rtype g)).
  all: first [ apply lock_compareInterfaceValue | apply lock_compareArray; assumption
             | apply lock_compareSlice; assumption | apply lock_compareInterface; assumption
             | apply lock_comparePointer; assumption | apply lock_compareStruct; assumption
             | apply lock_compareMap | apply lock_compareFunc | apply lock_compareString
             | apply lock_compareChan ].
Qed.

Lemma lock_compare_step n got want p p' : ro_sync got want ->
  lock h (compare_step structs teq conf cmp eqv n got want p)
         (compare_step structs teq conf cmp eqv n want got p') (fun _ _ => True).
Proof.
  intros Hs. unfold compare_step.
  eapply lock_bind; [apply lock_compareValidity|]. intros a b <-.
  destruct a; simpl; [|lk].
  destruct got as [g|], want as [w|]; [|lk..].
  eapply lock_bind; [apply lock_compareType|]. intros a b [<- Ha].
  destruct a; simpl; [|lk]. specialize (Ha eq_refl).
  eapply lock_bind; [apply lock_checkVisited; exact Ha|]. intros a b <-.
  destruct a; simpl; [|lk].
  eapply lock_bind; [apply lock_get_zero|]. intros a b <-.
  destruct a; [apply lock_compareZero|apply lock_compareKind; assumption].
Qed.

End Steps.


Lemma lock_compare structs teq conf h :
  (forall x y, teq x y = teq y x) -> vars_only h = true ->
  forall fuel x y q q', ro_sync x y ->
  lock h (compare structs teq conf fuel x y q) (compare structs teq conf fuel y x q') (fun _ _ => True).
Proof.
  intros Hteq Hv. induction fuel as [|f IH]; intros x y q q' Hs.
  - apply lock_noA. intros s a s' _ X. discriminate X.
  - simpl compare.
    apply (lock_compare_step structs teq Hteq conf h Hv (compare structs teq conf f)
             (equals_with (compare structs teq conf f)) (fresh_verdict (compare structs teq conf f) h)).
    + exact IH.
    + intros a b s c s' Hsh E. unfold equals_with in E. rewrite Hsh in E.
      destruct (compare structs teq conf f a b [] (mkstate h [] [] false)) as [u s1| | |] eqn:Ec;
        try discriminate.
      injection E as <- <-.
      destruct (grows_compare structs teq conf f a b [] _ _ _ Ec) as (_ & K & _).
      simpl in K. split; [|unfold fresh_verdict; rewrite Ec; reflexivity].
      rewrite (K (vars_only_no_chan h Hv)), <- Hsh. destruct s; reflexivity.
    + intros a b b1 b2 Hab E1 E2. unfold fresh_verdict in E1, E2.
      destruct (compare structs teq conf f a b [] _) as [u1 s1| | |] eqn:Ec1; try discriminate.
      destruct (compare structs teq conf f b a [] _) as [u2 s2| | |] eqn:Ec2; try discriminate.
      destruct (IH a b [] [] Hab (mkstate h [] [] false) (mkstate h [] [] false) _ _ _ _ eq_refl eq_refl eq_refl eq_refl Ec1 Ec2)
        as (_ & _ & _ & _ & _ & nA & nB & EA & EB & Hn).
      simpl in EA, EB. rewrite EA in E1. rewrite EB in E2.
      injection E1 as <-. injection E2 as <-.
      destruct nA, nB; try reflexivity.
      * discriminate (proj1 Hn eq_refl).
      * discriminate (proj2 Hn eq_refl).
    + exact Hs.
Qed.

Import StringDiff.

Lemma scan_equal a b : forall k i,
  (forall j, (i <= j < i + k)%nat -> Bytes.byte_at a j = Bytes.byte_at b j) ->
  scan a b i k (-1) (-1) = ((-1)%Z, (-1)%Z).
Proof.
  induction k as [|k IH]; intros i Heq; [reflexivity|].
  simpl. rewrite (Heq i) by lia. rewrite Z.eqb_refl. simpl.
  apply IH. intros j Hj. apply Heq. lia.
Qed.

End Facts.


(* ------------------------------------------------------------------ *)
(** ** The claims *)

Module Claims.
Import Invariants Matching Lockstep Facts Fixtures StringDiff.

(** C10: two non-nil slices of the same type with the same data pointer
    (same backing array and offset) compare equal whatever their lengths:
    a step on them finishes without a record and without touching the heap,
    and [Compare] on them returns no mismatch. *)
Theorem compare_shared_slice_equal :
  forall structs teq conf fuel t a off n1 n2 ad1 ad2 ro1 ro2 p s,
    (exists s',
      compare structs teq conf (S fuel)
        (Some (RV (TSlice t) (VSlice (Some (a, off, n1))) ad1 ro1))
        (Some (RV (TSlice t) (VSlice (Some (a, off, n2))) ad2 ro2)) p s = Ok tt s'
      /\ errs s' = errs s /\ sheap s' = sheap s)
    /\ (forall h,
      returned (Compare structs teq conf (S fuel) h
        (Some (TSlice t, VSlice (Some (a, off, n1))))
        (Some (TSlice t, VSlice (Some (a, off, n2))))) = Some []).
Proof.
  assert (Hstep : forall structs teq conf fuel t a off n1 n2 ad1 ad2 ro1 ro2 p s,
    exists s',
      compare structs teq conf (S fuel)
        (Some (RV (TSlice t) (VSlice (Some (a, off, n1))) ad1 ro1))
        (Some (RV (TSlice t) (VSlice (Some (a, off, n2))) ad2 ro2)) p s = Ok tt s'
      /\ errs s' = errs s /\ sheap s' = sheap s).
  { intros. rewrite compare_S. simpl. rewrite ty_eqb_refl.
    destruct (repeat_visit _ _ _). { eauto. }
    destruct (zero s).
    - rewrite compareZero_spec. simpl. rewrite app_nil_r. eauto.
    - unfold compareKind, compareSlice. simpl. rewrite loc_eqb_refl.
      unfold ret. eauto. }
  split; [apply Hstep|].
  intros h. unfold Compare, ValueOf, option_map, fst.
  destruct (Hstep structs teq conf fuel t a off n1 n2 None None false false
              [RootNode (Some (TSlice t))] (mkstate h [] [] false)) as (s' & E & Herr & _).
  rewrite E. simpl. rewrite Herr. reflexivity.
Qed.

(** C8: [Compare(&x, &x)] reports equal for every pointer [&x], cyclic or
    not; and a pair whose canonical (address, address, type) triple has
    been visited already is treated as equal: the step stops and changes
    nothing. *)
Theorem compare_cycle_guard :
  (forall structs teq conf fuel h t l,
     returned (Compare structs teq conf (S fuel) h
                 (Some (TPtr t, VPtr (Some l))) (Some (TPtr t, VPtr (Some l)))) = Some [])
  /\ (forall structs teq conf fuel g w p s,
     rtype g = rtype w -> repeat_visit g w (visits s) = true ->
     compare structs teq conf (S fuel) (Some g) (Some w) p s = Ok tt s).
Proof.
  split.
  - intros. unfold Compare, ValueOf, option_map, fst.
    rewrite compare_S. simpl. rewrite ty_eqb_refl.
    unfold compareKind, comparePointer. simpl. rewrite loc_eqb_refl. reflexivity.
  - intros structs teq conf fuel g w p s Ht Hr.
    rewrite compare_S, Ht, ty_eqb_refl, Hr. reflexivity.
Qed.

Lemma compare_cycle_guard_witness :
  rtype n1_next = rtype n2_next
  /\ repeat_visit n1_next n2_next [next_visit] = true
  /\ compare node_structs (fun _ _ => true) (mkConfig false ""%string) 3 (Some n1_next) (Some n2_next)
       [] (mkstate node_heap [] [next_visit] false)
     = Ok tt (mkstate node_heap [] [next_visit] false).
Proof.
  split; [reflexivity|]. split; [vm_compute; reflexivity|].
  apply (proj2 compare_cycle_guard); [reflexivity | vm_compute; reflexivity].
Defined.

(** C2, amended: for two slices of the same type with different lengths,
    at a step that is not a repeated visit and not under a pending "+"
    flag, with distinct data pointers, exactly one record is made at the
    slice's path and nothing below it: a [Length] mismatch when both or
    neither are nil, a [Nil] mismatch when one is nil.  Two arrays of the
    same type always have the same length. *)
Theorem compare_slice_length_mismatch :
  (forall structs teq conf fuel t g w p s,
    rtype g = TSlice t -> rtype w = TSlice t ->
    zero s = false -> repeat_visit g w (visits s) = false ->
    opt_eqb loc_eqb (Pointer (rdata g)) (Pointer (rdata w)) = false ->
    Len (sheap s) g <> Len (sheap s) w ->
    compare structs teq conf (S fuel) (Some g) (Some w) p s
    = Ok tt (mkstate (sheap s)
               (errs s ++ [if Bool.eqb (IsNil (rdata g)) (IsNil (rdata w))
                           then LenError g w p else NilError (Some g) (Some w) p])
               (visit_after g w (visits s)) false))
  /\ (forall h n e g w, rtype g = TArray n e -> rtype w = TArray n e -> Len h g = Len h w).
Proof.
  split.
  - intros structs teq conf fuel t g w p s Hg Hw Hz Hr Hp Hl.
    rewrite compare_S, Hg, Hw, ty_eqb_refl, Hr, Hz. simpl.
    unfold compareKind. rewrite Hg. simpl.
    unfold compareSlice. rewrite Hp.
    destruct (Bool.eqb _ _) eqn:Hn; simpl.
    + unfold compareArray, bind, get_heap. simpl.
      apply Nat.eqb_neq in Hl. rewrite Hl. simpl.
      unfold add_err. simpl. rewrite <- Hz. reflexivity.
    + unfold add_err. simpl. rewrite <- Hz. reflexivity.
  - intros h n e g w Hg Hw. unfold Len. rewrite Hg, Hw. reflexivity.
Qed.

Lemma compare_slice_length_mismatch_witness :
  compare (fun _ => []) (fun _ _ => true) (mkConfig false ""%string) 5 (Some s123) (Some s12)
    [RootNode (Some (TSlice TInt))] (mkstate slice_heap [] [] false)
  = Ok tt (mkstate slice_heap [LenError s123 s12 [RootNode (Some (TSlice TInt))]] [] false).
Proof.
  apply (proj1 compare_slice_length_mismatch (fun _ => []) (fun _ _ => true)
           (mkConfig false ""%string) 4 TInt s123 s12 [RootNode (Some (TSlice TInt))]
           (mkstate slice_heap [] [] false));
    first [reflexivity | vm_compute; lia].
Defined.



(** C4, amended: two strings of different lengths that agree byte for byte
    over their overlap give the range from the shorter length to the length
    of the first string: [[len a, len a]] when [a] is the shorter one,
    [[len b, len a]] when [b] is a proper prefix of [a]. *)
Theorem sdiff_common_prefix :
  forall a b, String.length a <> String.length b ->
    (forall i, (i < Nat.min (String.length a) (String.length b))%nat ->
       Bytes.byte_at a i = Bytes.byte_at b i) ->
    sdiff a b = Some (mkdiff (Z.of_nat (Nat.min (String.length a) (String.length b)))
                             (Z.of_nat (String.length a))).
Proof.
  intros a b Hl Heq. unfold sdiff.
  destruct (String.eqb_spec a b) as [->|_]; [congruence|].
  rewrite scan_equal by (intros j Hj; apply Heq; lia).
  reflexivity.
Qed.

Lemma sdiff_common_prefix_witness :
  sdiff "hello world"%string "hello world!!"%string = Some (mkdiff 11 11).
Proof.
  apply (sdiff_common_prefix "hello world"%string "hello world!!"%string).
  - simpl; lia.
  - intros i Hi. simpl in Hi. do 11 (destruct i as [|i]; [reflexivity|]). lia.
Defined.

(** C6: comparing two maps of the same type and length with distinct,
    non-nil data runs through the keys of [want], in [MapKeys] order, from
    the state the cycle guard leaves: a key both maps hold has the two
    values compared by [compare] at that key's path, and a key [got] lacks
    gives a [Validity] record at that key's path; every record made lies
    under the path of a key of [want], so a key found only in [got] is never
    reported. *)
Theorem compare_map_want_keys :
  forall structs teq conf fuel kt et g w p s s',
    rtype g = TMap kt et -> rtype w = TMap kt et ->
    zero s = false -> repeat_visit g w (visits s) = false ->
    opt_eqb loc_eqb (Pointer (rdata g)) (Pointer (rdata w)) = false ->
    IsNil (rdata g) = IsNil (rdata w) ->
    Len (sheap s) g = Len (sheap s) w ->
    compare structs teq conf (S fuel) (Some g) (Some w) p s = Ok tt s' ->
    (exists ss,
       nth_error ss 0 = Some (mkstate (sheap s) (errs s) (visit_after g w (visits s)) false)
       /\ nth_error ss (length (MapKeys (sheap s) w)) = Some s'
       /\ forall i k, nth_error (MapKeys (sheap s) w) i = Some k ->
            exists si si', nth_error ss i = Some si /\ nth_error ss (S i) = Some si' /\
              match MapIndex (sheap s) g k, MapIndex (sheap s) w k with
              | Some vg, Some vw =>
                  compare structs teq conf fuel (Some vg) (Some vw) (padd p (MapNode (rdata k))) si
                  = Ok tt si'
              | vg, vw =>
                  si' = mkstate (sheap si) (errs si ++ [ValidityError vg vw (padd p (MapNode (rdata k)))])
                                (visits si) (zero si)
              end)
    /\ (forall k, In k (MapKeys (sheap s) w) -> MapIndex (sheap s) g k = None ->
       In (ValidityError None (MapIndex (sheap s) w k) (padd p (MapNode (rdata k)))) (errs s'))
    /\ exists new, errs s' = errs s ++ new
       /\ Forall (fun e => exists k, In k (MapKeys (sheap s) w)
                             /\ prefix (padd p (MapNode (rdata k))) (err_path e)) new.
Proof.
  intros structs teq conf fuel kt et g w p s s' Hg Hw Hz Hr Hp Hn Hl E.
  rewrite compare_S, Hg, Hw, ty_eqb_refl, Hr, Hz in E.
  unfold compareKind in E. rewrite Hg in E. simpl in E.
  unfold compareMap in E. rewrite Hp, Hn, Bool.eqb_reflx in E. simpl in E.
  unfold bind, get_heap in E. simpl in E. rewrite Hl, Nat.eqb_refl in E. simpl in E.
  pose proof (fun q got want => grows_compare structs teq conf fuel got want q) as Hc.
  destruct (map_loop_spec _ g w p Hc _ _ _ E) as (_ & Hin & new & En & F).
  destruct (map_loop_trace _ g w p Hc _ _ _ E) as (ss & H0 & Hlast & Hi).
  simpl in *. split; [exists ss; auto|]. split; [exact Hin|]. exists new. auto.
Qed.

Lemma compare_map_want_keys_witness :
  compare (fun _ => []) (fun _ _ => true) (mkConfig false ""%string) 4 (Some kv_ab) (Some kv_ac)
    [RootNode (Some (TMap TString TInt))] (mkstate kv_heap [] [] false)
  = Ok tt (mkstate kv_heap
             [ValidityError None (Some (RV TInt (VInt 2) None false))
                [RootNode (Some (TMap TString TInt)); MapNode (VString "c"%string)]] [] false)
  /\ In (ValidityError None (Some (RV TInt (VInt 2) None false))
          [RootNode (Some (TMap TString TInt)); MapNode (VString "c"%string)])
        [ValidityError None (Some (RV TInt (VInt 2) None false))
          [RootNode (Some (TMap TString TInt)); MapNode (VString "c"%string)]].
Proof.
  assert (E : compare (fun _ => []) (fun _ _ => true) (mkConfig false ""%string) 4 (Some kv_ab) (Some kv_ac)
    [RootNode (Some (TMap TString TInt))] (mkstate kv_heap [] [] false)
    = Ok tt (mkstate kv_heap
             [ValidityError None (Some (RV TInt (VInt 2) None false))
                [RootNode (Some (TMap TString TInt)); MapNode (VString "c"%string)]] [] false))
    by (vm_compute; reflexivity).
  split; [exact E|].
  apply (proj1 (proj2 (compare_map_want_keys _ _ _ 3 TString TInt kv_ab kv_ac
                  [RootNode (Some (TMap TString TInt))] (mkstate kv_heap [] [] false) _
                  eq_refl eq_refl eq_refl eq_refl eq_refl eq_refl eq_refl E))
               (RV TString (VString "c"%string) None false)); vm_compute; auto.
Defined.

(** X26: on a heap that holds only variables and backing arrays (no map,
    no channel), and for a [time.Time.Equal] that is symmetric, when
    [Compare(a, b)] and [Compare(b, a)] both finish, one returns no mismatch
    exactly when the other returns none. *)
Theorem compare_verdict_symmetric structs teq conf fuel h a b ea eb sa sb :
  (forall x y, teq x y = teq y x) -> vars_only h = true ->
  Compare structs teq conf fuel h a b = Ok ea sa ->
  Compare structs teq conf fuel h b a = Ok eb sb ->
  (ea = [] <-> eb = []).
Proof.
  intros Hteq Hv E1 E2. unfold Compare in E1, E2.
  destruct (compare structs teq conf fuel (ValueOf a) (ValueOf b) _ _) as [u1 s1| | |] eqn:Ec1;
    try discriminate.
  destruct (compare structs teq conf fuel (ValueOf b) (ValueOf a) _ _) as [u2 s2| | |] eqn:Ec2;
    try discriminate.
  injection E1 as <- _. injection E2 as <- _.
  assert (Hs : ro_sync (ValueOf a) (ValueOf b)).
  { destruct a as [[t v]|], b as [[t' v']|]; simpl; auto. }
  destruct (lock_compare structs teq conf h Hteq Hv fuel _ _ _ _ Hs
              (mkstate h [] [] false) (mkstate h [] [] false) _ _ _ _ eq_refl
              eq_refl eq_refl eq_refl Ec1 Ec2) as (_ & _ & _ & _ & _ & nA & nB & EA & EB & Hn).
  simpl in EA, EB. rewrite EA, EB. exact Hn.
Qed.

Lemma compare_verdict_symmetric_witness :
  (forall x y : val, (fun _ _ => true) x y = (fun _ _ => true) y x)
  /\ vars_only perm_heap = true
  /\ Compare (fun _ => []) (fun _ _ => true) (mkConfig true ""%string) 10 perm_heap
       (Some sl_12) (Some sl_21) = Ok [] (mkstate perm_heap [] [] false)
  /\ Compare (fun _ => []) (fun _ _ => true) (mkConfig true ""%string) 10 perm_heap
       (Some sl_21) (Some sl_12) = Ok [] (mkstate perm_heap [] [] false)
  /\ (@nil cmperr = [] <-> @nil cmperr = []).
Proof.
  split; [intros; reflexivity|]. split; [reflexivity|].
  split; [vm_compute; reflexivity|]. split; [vm_compute; reflexivity|].
  apply (compare_verdict_symmetric (fun _ => []) (fun _ _ => true) (mkConfig true ""%string) 10
           perm_heap (Some sl_12) (Some sl_21) [] [] (mkstate perm_heap [] [] false)
           (mkstate perm_heap [] [] false));
    [intros; reflexivity | reflexivity | vm_compute; reflexivity | vm_compute; reflexivity].
Defined.

End Claims.


(* ------------------------------------------------------------------ *)
(** ** Helper lemmas for the further properties *)

Module ExtraFacts.
Import Go Reflect Cmp Comparator Invariants Facts GoStrings StringDiff.
Local Open Scope string_scope.
Local Open Scope nat_scope.

Lemma length_substring : forall s n m, n + m <= String.length s -> String.length (substring n m s) = m.
Proof.
  induction s as [|c s IH]; intros n m H; simpl in *.
  - assert (n = 0 /\ m = 0) as [-> ->] by lia. reflexivity.
  - destruct n as [|n].
    + destruct m as [|m]; [reflexivity|]. simpl. f_equal. apply IH. lia.
    + apply IH. lia.
Qed.

Lemma substring_app : forall s i a b, i + a + b <= String.length s ->
  substring i (a + b) s = substring i a s ++ substring (i + a) b s.
Proof.
  induction s as [|c s IH]; intros i a b H; simpl in *.
  - assert (i = 0 /\ a = 0 /\ b = 0) as (-> & -> & ->) by lia. reflexivity.
  - destruct i as [|i].
    + destruct a as [|a]; simpl; [reflexivity|]. f_equal.
      replace (a + b) with (a + b) by lia. pose proof (IH 0 a b ltac:(lia)) as E. simpl in E. exact E.
    + apply IH. lia.
Qed.

Lemma substring_full : forall s, substring 0 (String.length s) s = s.
Proof. induction s; simpl; [reflexivity|]. f_equal. exact IHs. Qed.

Lemma substring_get : forall a b n, n <= String.length a -> n <= String.length b ->
  (forall i, i < n -> String.get i a = String.get i b) -> substring 0 n a = substring 0 n b.
Proof.
  induction a as [|c a IH]; intros b n Ha Hb Hg; simpl in *.
  - assert (n = 0) as -> by lia. destruct b; reflexivity.
  - destruct n as [|n]; [destruct b; reflexivity|].
    destruct b as [|c' b]; simpl in Hb; [lia|].
    pose proof (Hg 0 ltac:(lia)) as E0. simpl in E0. injection E0 as ->. simpl. f_equal.
    apply IH; try lia. intros i Hi. apply (Hg (S i)). lia.
Qed.

Lemma get_lt : forall s i, i < String.length s -> String.get i s <> None.
Proof.
  induction s as [|c s IH]; intros i H; simpl in *; [lia|].
  destruct i; [discriminate|]. apply IH. lia.
Qed.

Lemma byte_at_get a b i : i < String.length a -> i < String.length b ->
  Bytes.byte_at a i = Bytes.byte_at b i -> String.get i a = String.get i b.
Proof.
  unfold Bytes.byte_at. intros Ha Hb E.
  destruct (String.get i a) as [c|] eqn:Ea; [|exfalso; exact (get_lt a i Ha Ea)].
  destruct (String.get i b) as [c'|] eqn:Eb; [|exfalso; exact (get_lt b i Hb Eb)].
  apply Nat2Z.inj in E. rewrite <- (ascii_nat_embedding c), <- (ascii_nat_embedding c'), E. reflexivity.
Qed.

Local Open Scope Z_scope.

Lemma lead_size s0 lo hi sz : UTF8.lead s0 = Some (lo, hi, sz) -> 2 <= sz <= 4.
Proof.
  unfold UTF8.lead. intros H.
  repeat (destruct (_ <? _) in H || destruct (_ <=? _) in H || destruct (_ =? _) in H);
    try discriminate; injection H as <- <- <-; lia.
Qed.

Lemma decode_width s :
  0 <= snd (UTF8.DecodeRuneInString s) <= Z.of_nat (String.length s) /\
  (1 <= Z.of_nat (String.length s) -> 1 <= snd (UTF8.DecodeRuneInString s)).
Proof.
  unfold UTF8.DecodeRuneInString. cbv zeta.
  destruct (Z.of_nat (String.length s) <? 1) eqn:E1; [apply Z.ltb_lt in E1; simpl; lia|].
  apply Z.ltb_ge in E1.
  destruct (UTF8.lead (Bytes.byte_at s 0)) as [[[lo hi] sz]|] eqn:L.
  2: destruct (_ <? 128); simpl; lia.
  pose proof (lead_size _ _ _ _ L) as Hsz.
  destruct (Z.of_nat (String.length s) <? sz) eqn:E2; [simpl; lia|]. apply Z.ltb_ge in E2.
  destruct (_ || _); [simpl; lia|].
  destruct (sz <=? 2) eqn:E3; [simpl; lia|]. apply Z.leb_gt in E3.
  destruct (negb _); [simpl; lia|].
  destruct (sz <=? 3) eqn:E4; [apply Z.leb_le in E4; simpl; lia|]. apply Z.leb_gt in E4.
  destruct (negb _); simpl; lia.
Qed.

Lemma length_suffix a n : (n <= String.length a)%nat ->
  String.length (Bytes.suffix a n) = (String.length a - n)%nat.
Proof. intros H. unfold Bytes.suffix. apply length_substring. lia. Qed.

(** The loop of [sdiff] keeps [-1 = start = end] (nothing found yet) or
    [0 <= start < end <= i]. *)
Lemma scan_bounds a b : forall k i st en,
  (st = -1 /\ en = -1) \/ (0 <= st < en /\ en <= Z.of_nat i) ->
  let r := scan a b i k st en in
  (fst r = -1 /\ snd r = -1 /\ st = -1) \/ (0 <= fst r < snd r /\ snd r <= Z.of_nat (i + k)) /\
  (st = -1 -> fst r < Z.of_nat (i + k)).
Proof.
  induction k as [|k IH]; intros i st en Hinv; simpl.
  - destruct Hinv as [[-> ->]|Hinv]; [left; lia|right; split; [lia|intros ->; lia]].
  - set (ai := Bytes.byte_at a i). set (bi := Bytes.byte_at b i).
    destruct ((st =? -1) && negb (ai =? bi)) eqn:E1.
    + apply andb_true_iff in E1 as [E1 E2]. apply Z.eqb_eq in E1. subst st.
      apply negb_true_iff in E2. rewrite E2, andb_false_r.
      specialize (IH (S i) (Z.of_nat i) (Z.of_nat i + 1) ltac:(right; lia)). cbv zeta in IH.
      destruct IH as [[_ [_ H]]|[H _]]; [lia|]. right. split; [lia|]. intros _. lia.
    + destruct ((st >? -1) && (ai =? bi)) eqn:E2.
      * apply andb_true_iff in E2 as [E2 E3]. apply Z.gtb_lt in E2. simpl.
        destruct Hinv as [[-> ->]|Hinv]; [lia|]. right. split; [lia|lia].
      * specialize (IH (S i) st en ltac:(destruct Hinv; [left|right]; lia)). cbv zeta in IH.
        destruct IH as [H|[H1 H2]]; [left; exact H|right; split; [lia|]].
        intros Hst. specialize (H2 Hst). lia.
Qed.

Lemma back_up_bounds a : forall k st r w,
  0 <= st -> 0 <= w -> st + w <= Z.of_nat (String.length a) ->
  let r' := back_up a k st r w in
  0 <= fst r' <= st /\ 0 <= snd r' /\ fst r' + snd r' <= Z.of_nat (String.length a).
Proof.
  induction k as [|k IH]; intros st r w H0 Hw Hl; simpl; [lia|].
  destruct ((r =? UTF8.RuneError) && (st >? 0)) eqn:E; [|simpl; lia].
  apply andb_true_iff in E as [_ E]. apply Z.gtb_lt in E.
  pose proof (decode_width (Bytes.suffix a (Z.to_nat (st - 1)))) as [Hd _].
  rewrite length_suffix in Hd by lia.
  destruct (UTF8.DecodeRuneInString _) as [r1 w1] eqn:D. simpl in Hd.
  specialize (IH (st - 1) r1 w1 ltac:(lia) ltac:(lia) ltac:(lia)). cbv zeta in IH. lia.
Qed.

(** The bounds of a [*diff] returned by [sdiff]. *)
Lemma sdiff_bounds a b d : sdiff a b = Some d ->
  0 <= start d <= end_ d /\ end_ d <= Z.of_nat (String.length a) /\
  ((scan a b 0 (Nat.min (String.length a) (String.length b)) (-1) (-1) = (-1, -1) /\
    start d = Z.of_nat (Nat.min (String.length a) (String.length b)) /\
    end_ d = Z.of_nat (String.length a)) \/
   (start d < end_ d /\ start d < Z.of_nat (Nat.min (String.length a) (String.length b)))).
Proof.
  unfold sdiff. destruct (String.eqb a b); [discriminate|].
  set (n := Nat.min (String.length a) (String.length b)).
  pose proof (scan_bounds a b n 0 (-1) (-1) ltac:(left; lia)) as Hs. cbv zeta in Hs.
  destruct (scan a b 0 n (-1) (-1)) as [st en] eqn:S. simpl in Hs.
  destruct (st =? -1) eqn:E0.
  - apply Z.eqb_eq in E0. subst st. intros H; injection H as <-. simpl.
    destruct Hs as [[_ [-> _]]|[H _]]; [|lia]. unfold n.
    split; [lia|]. split; [lia|]. left. auto.
  - apply Z.eqb_neq in E0. destruct Hs as [Hs|[Hs Hlt]]; [lia|]. specialize (Hlt eq_refl).
    assert (Hn : (n <= String.length a)%nat) by (unfold n; lia).
    pose proof (decode_width (Bytes.suffix a (Z.to_nat st))) as [Hd _].
    rewrite length_suffix in Hd by lia.
    destruct (UTF8.DecodeRuneInString _) as [r w] eqn:D. simpl in Hd.
    destruct ((w >? 1) || (r =? UTF8.RuneError)).
    + pose proof (back_up_bounds a (Z.to_nat st) st r w ltac:(lia) ltac:(lia) ltac:(lia)) as Hb.
      cbv zeta in Hb. destruct (back_up a (Z.to_nat st) st r w) as [st' w'].
      simpl in Hb. intros H; injection H as <-. simpl.
      destruct (st' + w' >? en) eqn:E; [apply Z.gtb_lt in E|rewrite Z.gtb_ltb in E; apply Z.ltb_ge in E]; lia.
    + intros H; injection H as <-. simpl. lia.
Qed.

Lemma length_app : forall s t, String.length (s ++ t) = (String.length s + String.length t)%nat.
Proof. induction s; intros t; simpl; [reflexivity|]. rewrite IHs. reflexivity. Qed.

Lemma get_app_l : forall s t i, (i < String.length s)%nat -> String.get i (s ++ t) = String.get i s.
Proof.
  induction s as [|c s IH]; intros t i H; simpl in *; [lia|].
  destruct i; [reflexivity|]. apply IH. lia.
Qed.

Lemma slice_ok s i j : 0 <= i <= j -> j <= Z.of_nat (String.length s) ->
  slice s i j = Some (substring (Z.to_nat i) (Z.to_nat (j - i)) s).
Proof.
  intros H1 H2. unfold slice.
  replace ((0 <=? i) && (i <=? j) && (j <=? Z.of_nat (String.length s))) with true; [reflexivity|].
  symmetry. repeat rewrite andb_true_iff. repeat rewrite Z.leb_le. lia.
Qed.

Lemma append_nil_r : forall s, s ++ EmptyString = s.
Proof. induction s; simpl; congruence. Qed.

Lemma substring_zero : forall s n, substring n 0 s = EmptyString.
Proof. induction s; intros [|n]; simpl; auto. Qed.

(** A string cut at [i <= j <= len s] into three pieces. *)
Lemma split3 s i j : (i <= j <= String.length s)%nat ->
  s = substring 0 i s ++ substring i (j - i) s ++ substring j (String.length s - j) s.
Proof.
  intros H. rewrite <- (substring_full s) at 1.
  replace (String.length s) with (i + ((j - i) + (String.length s - j)))%nat at 1 by lia.
  rewrite substring_app by lia. simpl.
  rewrite substring_app by lia. replace (i + (j - i))%nat with j by lia. reflexivity.
Qed.

(** [scan] finds nothing only when the bytes scanned agree. *)
Lemma scan_none_equal a b : forall k i,
  scan a b i k (-1) (-1) = (-1, -1) ->
  forall j, (i <= j < i + k)%nat -> Bytes.byte_at a j = Bytes.byte_at b j.
Proof.
  induction k as [|k IH]; intros i H j Hj; [lia|]. simpl in H.
  destruct (Bytes.byte_at a i =? Bytes.byte_at b i) eqn:E.
  - simpl in H. apply Z.eqb_eq in E.
    destruct (Nat.eq_dec j i) as [->|Hne]; [exact E|].
    apply (IH (S i) H). lia.
  - simpl in H. rewrite andb_false_r in H.
    pose proof (scan_bounds a b k (S i) (Z.of_nat i) (Z.of_nat i + 1) ltac:(right; lia)) as Hs.
    cbv zeta in Hs. rewrite H in Hs. simpl in Hs. lia.
Qed.

Lemma bytes_prefix a b n : (n <= String.length a)%nat -> (n <= String.length b)%nat ->
  (forall j, (j < n)%nat -> Bytes.byte_at a j = Bytes.byte_at b j) ->
  substring 0 n a = substring 0 n b.
Proof.
  intros Ha Hb H. apply substring_get; [lia|lia|]. intros i Hi.
  apply byte_at_get; [lia|lia|]. apply H. lia.
Qed.

(** [want] is a prefix of [got] exactly when [sdiff] places the start of
    the difference at or past the end of [want]. *)
Lemma sdiff_want_prefix got want d : sdiff got want = Some d ->
  (Z.of_nat (String.length want) <= start d <-> exists rest, got = want ++ rest).
Proof.
  intros Hd. pose proof (sdiff_bounds _ _ _ Hd) as (H0 & H1 & H3). split.
  - intros Hle. destruct H3 as [(H3 & H4 & _)|H3]; [|lia].
    assert (Hn : Nat.min (String.length got) (String.length want) = String.length want) by lia.
    rewrite Hn in H3.
    pose proof (scan_none_equal _ _ _ _ H3) as Heq.
    exists (substring (String.length want) (String.length got - String.length want) got).
    rewrite (split3 got (String.length want) (String.length want)) at 1 by lia.
    rewrite Nat.sub_diag, substring_zero. simpl.
    f_equal. rewrite (bytes_prefix got want) by (try lia; intros j Hj; apply Heq; lia).
    apply substring_full.
  - intros [rest ->]. unfold sdiff in Hd.
    destruct (String.eqb (want ++ rest) want); [discriminate|].
    rewrite length_app in Hd.
    replace (Nat.min (String.length want + String.length rest) (String.length want))
      with (String.length want) in Hd by lia.
    rewrite scan_equal in Hd.
    + simpl in Hd. injection Hd as <-. simpl. lia.
    + intros j Hj. unfold Bytes.byte_at. rewrite get_app_l by lia. reflexivity.
Qed.

Lemma sdiff_some a b : a <> b -> exists d, sdiff a b = Some d.
Proof.
  intros H. unfold sdiff. destruct (String.eqb_spec a b) as [|_]; [contradiction|].
  destruct (scan _ _ _ _ _ _) as [st en]. destruct (st =? -1); [eauto|].
  destruct (UTF8.DecodeRuneInString _) as [r w]. destruct (_ || _); [|eauto].
  destruct (back_up _ _ _ _ _). eauto.
Qed.

(** The difference is empty exactly when [got] is a prefix of [want]. *)
Lemma sdiff_empty_prefix got want d : sdiff got want = Some d ->
  (start d = end_ d <-> exists rest, want = got ++ rest).
Proof.
  intros Hd. pose proof (sdiff_bounds _ _ _ Hd) as (H0 & H1 & H3). split.
  - intros Heq. destruct H3 as [(H3 & H4 & H5)|H3]; [|lia].
    assert (Hn : Nat.min (String.length got) (String.length want) = String.length got) by lia.
    rewrite Hn in H3.
    pose proof (scan_none_equal _ _ _ _ H3) as Hb.
    exists (substring (String.length got) (String.length want - String.length got) want).
    rewrite (split3 want (String.length got) (String.length got)) at 1 by lia.
    rewrite Nat.sub_diag, substring_zero. simpl.
    f_equal. rewrite (bytes_prefix want got) by (try lia; intros j Hj; symmetry; apply Hb; lia).
    apply substring_full.
  - intros [rest ->]. unfold sdiff in Hd.
    destruct (String.eqb got (got ++ rest)); [discriminate|].
    rewrite length_app in Hd.
    replace (Nat.min (String.length got) (String.length got + String.length rest))
      with (String.length got) in Hd by lia.
    rewrite scan_equal in Hd.
    + simpl in Hd. injection Hd as <-. reflexivity.
    + intros j Hj. unfold Bytes.byte_at. rewrite get_app_l by lia. reflexivity.
Qed.


Lemma newStringError_shape got want d : sdiff got want = Some d ->
  let ds := Z.to_nat (start d) in
  let de := Z.to_nat (end_ d) in
  let lw := String.length want in
  newStringError got want = Some
    (marked gotColor diffGotColor diffGotStopColor (substring 0 ds got)
       (substring ds (de - ds) got) (substring de (String.length got - de) got),
     if (Z.of_nat lw >? start d)
     then marked wantColor diffWantColor diffWantStopColor (substring 0 ds want)
            (substring ds (Nat.min de lw - ds) want)
            (substring (Nat.min de lw) (lw - Nat.min de lw) want)
     else quoted wantColor want).
Proof.
  intros Hd. pose proof (sdiff_bounds _ _ _ Hd) as (H0 & H1 & _). cbv zeta.
  unfold newStringError. rewrite Hd.
  rewrite (slice_ok got 0 (start d)) by lia.
  rewrite (slice_ok got (end_ d)) by lia.
  rewrite (slice_ok got (start d) (end_ d)) by lia.
  replace (Z.to_nat (Z.of_nat (String.length got) - end_ d)) with (String.length got - Z.to_nat (end_ d))%nat by lia.
  replace (Z.to_nat (end_ d - start d)) with (Z.to_nat (end_ d) - Z.to_nat (start d))%nat by lia.
  replace (Z.to_nat (start d - 0)) with (Z.to_nat (start d)) by lia.
  destruct (Z.of_nat (String.length want) >? start d) eqn:E1; [|reflexivity].
  apply Z.gtb_lt in E1.
  rewrite (slice_ok want 0 (start d)) by lia.
  replace (Z.to_nat (start d - 0)) with (Z.to_nat (start d)) by lia.
  destruct (Z.of_nat (String.length want) >? end_ d) eqn:E2.
  - apply Z.gtb_lt in E2.
    rewrite (slice_ok want (end_ d)) by lia. rewrite (slice_ok want (start d) (end_ d)) by lia.
    replace (Nat.min (Z.to_nat (end_ d)) (String.length want)) with (Z.to_nat (end_ d)) by lia.
    replace (Z.to_nat (end_ d - start d)) with (Z.to_nat (end_ d) - Z.to_nat (start d))%nat by lia.
    replace (Z.to_nat (Z.of_nat (String.length want) - end_ d)) with (String.length want - Z.to_nat (end_ d))%nat by lia.
    reflexivity.
  - rewrite Z.gtb_ltb in E2. apply Z.ltb_ge in E2.
    rewrite (slice_ok want (start d)) by lia.
    replace (Nat.min (Z.to_nat (end_ d)) (String.length want)) with (String.length want) by lia.
    rewrite Nat.sub_diag, substring_zero.
    replace (Z.to_nat (Z.of_nat (String.length want) - start d)) with (String.length want - Z.to_nat (start d))%nat by lia.
    reflexivity.
Qed.
End ExtraFacts.

Module CompareFacts.
Import Go Reflect Cmp Comparator Invariants Facts GoStrings StringDiff ExtraFacts.

(** [Compare] on two non-nil arguments, after the root step's validity,
    type and cycle checks. *)
Lemma Compare_some structs teq conf fuel h t x t' y :
  Compare structs teq conf (S fuel) h (Some (t, x)) (Some (t', y)) =
  let g := RV t x None false in
  let w := RV t' y None false in
  let p := [RootNode (Some t')] in
  if ty_eqb t t' then
    match compareKind structs teq conf (compare structs teq conf fuel)
            (equals_with (compare structs teq conf fuel)) fuel g w p (mkstate h [] [] false) with
    | Ok _ s => Ok (errs s) s
    | Panic m => Panic m
    | Blocked => Blocked
    | OutOfFuel => OutOfFuel
    end
  else Ok [TypeError g w p] (mkstate h [TypeError g w p] [] false).
Proof.
  unfold Compare, ValueOf. simpl option_map. rewrite compare_S. simpl.
  destruct (ty_eqb t t'); reflexivity.
Qed.

Lemma ty_eqb_false t t' : t <> t' -> ty_eqb t t' = false.
Proof. intros H. unfold ty_eqb. destruct (ty_eq_dec t t'); congruence. Qed.

(** A [for] loop whose every body leaves the state as it is. *)
Lemma for_noop lo k (body : nat -> M unit) s :
  (forall i, lo <= i < lo + k -> body i s = Ok tt s) -> for_ lo k body s = Ok tt s.
Proof.
  revert lo. induction k as [|k IH]; intros lo H; simpl; [reflexivity|].
  unfold bind. rewrite H by lia. apply IH. intros i Hi. apply H. lia.
Qed.

End CompareFacts.


Module StrFacts.
Import Go Reflect Cmp Comparator Invariants Facts GoStrings StringDiff ExtraFacts.
Local Open Scope string_scope.
Local Open Scope Z_scope.

Lemma wrap_id z : - 2 ^ 63 <= z < 2 ^ 63 -> wrap z = z.
Proof. intros H. unfold wrap. rewrite Z.mod_small by lia. lia. Qed.

(** The window [strim] cuts, when [0 <= max < len(s)] and no [int]
    overflows: [2 * (max / 2)] bytes around [pos], or the first [max]. *)
Lemma strim_spec s pos max :
  0 <= max < Z.of_nat (String.length s) -> max < 2 ^ 62 -> pos < 2 ^ 62 ->
  let half := max / 2 in
  let k := if pos >? half then 2 * half else max in
  let lh := if pos >? half then Z.min (pos - half) (Z.of_nat (String.length s) - 2 * half) else 0 in
  0 <= lh /\ lh + k <= Z.of_nat (String.length s) /\ 0 <= k /\
  strim s pos max = Some (substring (Z.to_nat lh) (Z.to_nat k) s).
Proof.
  intros Hm Hm' Hp. cbv zeta. set (L := Z.of_nat (String.length s)) in *.
  assert (Hh : 0 <= max / 2 /\ 2 * (max / 2) <= max) by (split; [apply Z.div_pos; lia|apply Z.mul_div_le; lia]).
  assert (Hh2 : max < 2 * (max / 2) + 2) by (pose proof (Z.mod_pos_bound max 2 ltac:(lia)); pose proof (Z.div_mod max 2 ltac:(lia)); lia).
  unfold strim. fold L.
  replace (L <=? max) with false by (symmetry; apply Z.leb_gt; lia).
  replace (L >? max) with true by (symmetry; apply Z.gtb_lt; lia).
  rewrite Z.quot_div_nonneg by lia.
  destruct (pos >? max / 2) eqn:E.
  - apply Z.gtb_lt in E.
    rewrite (wrap_id (pos - max / 2)) by lia. rewrite (wrap_id (pos + max / 2)) by lia.
    destruct (pos + max / 2 >? L) eqn:E2.
    + apply Z.gtb_lt in E2.
      rewrite (wrap_id (pos + max / 2 - L)) by lia.
      rewrite (wrap_id (pos - max / 2 - (pos + max / 2 - L))) by lia.
      rewrite (wrap_id (pos + max / 2 - (pos + max / 2 - L))) by lia.
      rewrite slice_ok by lia.
      replace (Z.min (pos - max / 2) (L - 2 * (max / 2))) with (pos - max / 2 - (pos + max / 2 - L)) by lia.
      split; [lia|]. split; [lia|]. split; [lia|]. do 2 f_equal. f_equal. lia.
    + rewrite Z.gtb_ltb in E2. apply Z.ltb_ge in E2.
      rewrite slice_ok by lia.
      replace (Z.min (pos - max / 2) (L - 2 * (max / 2))) with (pos - max / 2) by lia.
      split; [lia|]. split; [lia|]. split; [lia|]. do 2 f_equal. f_equal. lia.
  - replace (max >? L) with false by (symmetry; rewrite Z.gtb_ltb; apply Z.ltb_ge; lia).
    rewrite slice_ok by lia. split; [lia|]. split; [lia|]. split; [lia|]. do 2 f_equal. f_equal. lia.
Qed.

Lemma list_ascii_app : forall a b,
  list_ascii_of_string (a ++ b) = (list_ascii_of_string a ++ list_ascii_of_string b)%list.
Proof. induction a; intros b; simpl; [reflexivity|]. rewrite IHa. reflexivity. Qed.

Lemma append_assoc : forall a b c, a ++ (b ++ c) = (a ++ b) ++ c.
Proof. induction a; intros; simpl; [reflexivity|]. rewrite IHa. reflexivity. Qed.

Lemma last_app_r {A} (l1 l2 : list A) d : l2 <> [] -> last (l1 ++ l2) d = last l2 d.
Proof.
  induction l1 as [|x l1 IH]; intros H; simpl; [reflexivity|].
  rewrite IH by exact H. destruct l1, l2; simpl in *; congruence.
Qed.

Lemma drop_nl_head : forall l c r, drop_nl l = c :: r -> Ascii.eqb c nl = false.
Proof.
  induction l as [|x l IH]; intros c r H; simpl in H; [discriminate|].
  destruct (Ascii.eqb x nl) eqn:E; [exact (IH c r H)|]. injection H as <- _. exact E.
Qed.

Lemma TrimRight_nl_no_nl s t : TrimRight_nl s <> t ++ String nl EmptyString.
Proof.
  unfold TrimRight_nl. intros H.
  apply (f_equal list_ascii_of_string) in H.
  rewrite list_ascii_of_string_of_list_ascii, list_ascii_app in H. simpl in H.
  apply (f_equal (@rev ascii)) in H. rewrite rev_involutive, rev_app_distr in H. simpl in H.
  apply drop_nl_head in H. first [discriminate | rewrite Ascii.eqb_refl in H; discriminate].
Qed.

Lemma TrimRight_nl_one s : last (list_ascii_of_string s) nl <> nl ->
  TrimRight_nl (s ++ String nl EmptyString) = s.
Proof.
  intros H. unfold TrimRight_nl. rewrite list_ascii_app. simpl. rewrite rev_app_distr. simpl.
  try rewrite Ascii.eqb_refl.
  destruct (rev (list_ascii_of_string s)) as [|c r] eqn:E.
  - apply (f_equal (@rev ascii)) in E. rewrite rev_involutive in E. rewrite E in H. contradiction.
  - simpl. replace (Ascii.eqb c nl) with false.
    + rewrite <- E, rev_involutive. apply string_of_list_ascii_of_string.
    + symmetry. apply Ascii.eqb_neq. intros ->.
      apply (f_equal (@rev ascii)) in E. rewrite rev_involutive in E. rewrite E in H.
      simpl in H. rewrite last_app_r in H by discriminate. simpl in H. contradiction.
Qed.

Local Notation sep := (String nl EmptyString).

Lemma fold_acc : forall msgs acc,
  fold_left (fun res m => res ++ m ++ sep) msgs acc = acc ++ fold_left (fun res m => res ++ m ++ sep) msgs EmptyString.
Proof.
  induction msgs as [|m msgs IH]; intros acc; simpl.
  - symmetry. apply append_nil_r.
  - rewrite IH, (IH (m ++ sep)). symmetry. apply append_assoc.
Qed.

Lemma fold_concat : forall msgs, msgs <> [] ->
  fold_left (fun res m => res ++ m ++ sep) msgs EmptyString = String.concat sep msgs ++ sep.
Proof.
  induction msgs as [|m msgs IH]; intros H; [contradiction|]. simpl.
  rewrite fold_acc. destruct msgs as [|m' msgs].
  - simpl. apply append_nil_r.
  - rewrite IH by discriminate. rewrite <- !append_assoc. reflexivity.
Qed.

Lemma concat_last : forall msgs, msgs <> [] ->
  exists u, String.concat sep msgs = u ++ last msgs EmptyString.
Proof.
  induction msgs as [|m msgs IH]; intros H; [contradiction|].
  destruct msgs as [|m' msgs].
  - exists EmptyString. reflexivity.
  - destruct (IH ltac:(discriminate)) as [u Hu]. exists (m ++ sep ++ u).
    change (String.concat sep (m :: m' :: msgs)) with (m ++ sep ++ String.concat sep (m' :: msgs)).
    rewrite Hu, !append_assoc. reflexivity.
Qed.

End StrFacts.


Module ArrayFacts.
Import Go Reflect Cmp Comparator Invariants Matching Facts ArrayDefs CompareFacts.

Lemma eqv_iv structs teq conf f a b s :
  equals_with (compare structs teq conf (S f)) (iv a) (iv b) s = Ok (opt_eqb Z.eqb a b) s.
Proof.
  destruct s as [h es vs z]. destruct a as [a|], b as [b|]; unfold equals_with; simpl; try reflexivity.
  unfold compare_step, compareValidity, compareType, checkVisited, bind, ret, get_zero. simpl.
  unfold compareKind, compareInterfaceValue, bind, ret, add_err. simpl. destruct (Z.eqb a b); reflexivity.
Qed.

Lemma pick_some_perm f : forall pool c pool',
  pick f pool = Some (c, pool') -> f c = true /\ Permutation pool (c :: pool').
Proof.
  induction pool as [|j rest IH]; intros c pool' E; simpl in E; [discriminate|].
  destruct (f j) eqn:Fj.
  - injection E as <- <-. split; [exact Fj|reflexivity].
  - destruct (pick f rest) as [[c' r']|] eqn:Ep; [|discriminate]. injection E as <- <-.
    destruct (IH _ _ eq_refl) as [H1 H2]. split; [exact H1|].
    rewrite H2. apply perm_swap.
Qed.

Lemma pick_none_all f : forall pool, pick f pool = None -> forall j, In j pool -> f j = false.
Proof.
  induction pool as [|j rest IH]; intros E x Hx; [destruct Hx|]. simpl in E.
  destruct (f j) eqn:Fj; [discriminate|].
  destruct (pick f rest) as [[]|] eqn:Ep; [discriminate|].
  destruct Hx as [<-|Hx]; [exact Fj|exact (IH eq_refl x Hx)].
Qed.

Lemma map_nth_seq_id (l : list Z) : map (fun j => nth j l 0%Z) (seq 0 (length l)) = l.
Proof.
  induction l as [|x l IH]; [reflexivity|]. simpl. f_equal.
  rewrite <- seq_shift, map_map. exact IH.
Qed.

Section Greedy.
Variables gs ws : list Z.


(** First-fit matching of equal elements succeeds exactly when the pool's
    elements are a permutation of the wanted ones. *)
Lemma greedy_int_perm : forall k i pool,
  i + k = length ws -> length pool = k -> (forall j, In j pool -> j < length gs) ->
  (greedy (e_int gs ws) i k pool <> None <->
   Permutation (map (fun j => nth j gs 0%Z) pool) (map (fun j => nth j ws 0%Z) (seq i k))).
Proof.
  induction k as [|k IH]; intros i pool Hk Hl Hin.
  - destruct pool; [|discriminate]. simpl. split; [constructor|discriminate].
  - simpl. destruct (pick (e_int gs ws i) pool) as [[c pool']|] eqn:Ep.
    + destruct (pick_some_perm _ _ _ _ Ep) as [Hc Hp].
      assert (Hcl : c < length gs) by (apply Hin; rewrite Hp; left; reflexivity).
      unfold e_int in Hc. rewrite (nth_error_nth' gs 0%Z Hcl), (nth_error_nth' ws 0%Z (n := i) ltac:(lia)) in Hc.
      simpl in Hc. apply Z.eqb_eq in Hc.
      assert (Hl' : length pool' = k) by (apply Permutation_length in Hp; simpl in Hp; lia).
      assert (Hin' : forall j, In j pool' -> j < length gs) by (intros j Hj; apply Hin; rewrite Hp; right; exact Hj).
      transitivity (greedy (e_int gs ws) (S i) k pool' <> None).
      { destruct (greedy (e_int gs ws) (S i) k pool'); simpl; split; congruence. }
      rewrite (IH (S i) pool' ltac:(lia) Hl' Hin').
      split; intros H.
      * eapply perm_trans; [apply Permutation_map; exact Hp|]. simpl. rewrite Hc. apply perm_skip. exact H.
      * apply (Permutation_cons_inv (a := nth i ws 0%Z)). rewrite <- Hc at 1.
        eapply perm_trans; [|exact H]. apply Permutation_sym.
        change (nth c gs 0%Z :: map (fun j => nth j gs 0%Z) pool') with (map (fun j => nth j gs 0%Z) (c :: pool')).
        apply Permutation_map. exact Hp.
    + split; [intros H; contradiction H; reflexivity|]. intros H. exfalso.
      assert (Hw : In (nth i ws 0%Z) (map (fun j => nth j gs 0%Z) pool))
        by (apply (Permutation_in _ (Permutation_sym H)); left; reflexivity).
      apply in_map_iff in Hw as (j & Hj & Hjp).
      pose proof (pick_none_all _ _ Ep j Hjp) as F. unfold e_int in F.
      rewrite (nth_error_nth' gs 0%Z (Hin j Hjp)), (nth_error_nth' ws 0%Z (n := i) ltac:(lia)) in F.
      simpl in F. rewrite Hj, Z.eqb_refl in F. discriminate.
Qed.

End Greedy.

Section Loop.
Variables (structs : string -> list field) (teq : val -> val -> bool) (conf : Config) (f : nat).
Variables (n : nat) (gs ws : list Z) (p : path).

Local Notation eqv := (equals_with (compare structs teq conf (S f))).
Local Notation g := (RV (TArray n TInt) (VArray (map VInt gs)) None false).
Local Notation w := (RV (TArray n TInt) (VArray (map VInt ws)) None false).

Lemma Index_int h xs i : Index h (RV (TArray n TInt) (VArray (map VInt xs)) None false) i = iv (nth_error xs i).
Proof. unfold Index. simpl. rewrite nth_error_map. destruct (nth_error xs i); reflexivity. Qed.

Lemma scan_pool_int b : forall pool s,
  scan_pool eqv g (iv b) pool s = Ok (option_map snd (pick (fun j => opt_eqb Z.eqb (nth_error gs j) b) pool)) s.
Proof.
  induction pool as [|j rest IH]; intros s; [reflexivity|]. cbn [scan_pool pick option_map].
  unfold bind at 1, get_heap. unfold bind at 1. rewrite Index_int. rewrite eqv_iv.
  destruct (opt_eqb Z.eqb (nth_error gs j) b); [reflexivity|].
  unfold bind. rewrite IH. destruct (pick _ rest) as [[]|]; reflexivity.
Qed.

Lemma match_loop_int : forall k i pool s, exists new,
  match_loop eqv g w p i k pool s = Ok tt (mkstate (sheap s) (errs s ++ new) (visits s) (zero s)) /\
  (new = [] <-> greedy (e_int gs ws) i k pool <> None).
Proof.
  induction k as [|k IH]; intros i pool s.
  - exists []. rewrite app_nil_r. destruct s. split; [reflexivity|]. simpl. split; [discriminate|reflexivity].
  - cbn [match_loop]. unfold bind at 1, get_heap. unfold bind at 1. rewrite Index_int, scan_pool_int.
    simpl greedy. unfold e_int at 1.
    destruct (pick (fun j => opt_eqb Z.eqb (nth_error gs j) (nth_error ws i)) pool) as [[c pool']|]; cbn -[compare].
    + destruct (IH (S i) pool' s) as (new & E & Hn). exists new. split; [exact E|].
      rewrite Hn. destruct (greedy _ (S i) k pool'); simpl; split; congruence.
    + unfold bind, add_err. cbn [errs sheap visits zero].
      destruct (IH (S i) pool (mkstate (sheap s) (errs s ++ [NilError (Some gotNil) (iv (nth_error ws i)) (padd p (ArrNode i))]) (visits s) (zero s)))
        as (new & E & _).
      rewrite E. eexists. simpl. rewrite <- app_assoc. split; [reflexivity|].
      split; [discriminate|intros H; contradiction H; reflexivity].
Qed.

End Loop.

End ArrayFacts.



(* ------------------------------------------------------------------ *)
(** ** Further properties of the comparator and of the messages *)

Module Extras.
Import Go Reflect Cmp Comparator Invariants Facts GoStrings StringDiff ExtraFacts CompareFacts.

(** X9: [Compare] on two [bool], [int], [uint] or [float64] values of the same type
    returns no mismatch when they are [==] in Go, and otherwise one Value
    mismatch at the root path. *)
Theorem Compare_basic_values structs teq conf fuel h t x y :
  In t [TBool; TInt; TUint; TFloat64] ->
  returned (Compare structs teq conf (S fuel) h (Some (t, x)) (Some (t, y))) =
  Some (if go_eq x y then [] else [ValueError x y [RootNode (Some t)]]).
Proof.
  intros Ht. rewrite Compare_some.
  simpl in Ht. destruct Ht as [<-|[<-|[<-|[<-|[]]]]]; simpl;
    unfold compareKind, compareInterfaceValue; simpl; destruct (go_eq x y); reflexivity.
Qed.

(** X10: [Compare] on two [float64] values returns no mismatch exactly when they
    are equal and not NaN: NaN is never equal to itself. *)
Theorem Compare_float structs teq conf fuel h x y :
  returned (Compare structs teq conf (S fuel) h (Some (TFloat64, VFloat x)) (Some (TFloat64, VFloat y)))
    = Some [] <-> x = y /\ x <> NaN.
Proof.
  rewrite Compare_some. unfold compareKind, compareInterfaceValue. simpl. destruct x as [|a], y as [|b]; simpl.
  - split; [discriminate|intros [_ []]; reflexivity].
  - split; [discriminate|intros [? _]; discriminate].
  - split; [discriminate|intros [? _]; discriminate].
  - destruct (Z.eqb_spec a b) as [->|Hne]; simpl.
    + split; [intros _; split; [reflexivity|discriminate]|reflexivity].
    + split; [discriminate|intros [E _]; injection E; contradiction].
Qed.

(** X11: [Compare] on two strings returns no mismatch when they are equal, and
    otherwise one String mismatch at the root carrying [sdiff(got, want)]. *)
Theorem Compare_string structs teq conf fuel h a b :
  returned (Compare structs teq conf (S fuel) h (Some (TString, VString a)) (Some (TString, VString b))) =
  Some (if String.eqb a b then [] else [StringError a b (sdiff a b) [RootNode (Some TString)]]).
Proof.
  rewrite Compare_some. unfold compareKind. simpl. unfold compareString. simpl. destruct (String.eqb a b); reflexivity.
Qed.

(** X12: [Compare] on two func values of the same type returns no mismatch only
    when both are nil; any non-nil func, even the same one on both sides,
    gives one Func mismatch at the root. *)
Theorem Compare_func structs teq conf fuel h sg c1 c2 :
  returned (Compare structs teq conf (S fuel) h (Some (TFunc sg, VFunc c1)) (Some (TFunc sg, VFunc c2))) =
  Some (match c1, c2 with
        | None, None => []
        | _, _ => [FuncError (RV (TFunc sg) (VFunc c1) None false) (RV (TFunc sg) (VFunc c2) None false)
                     [RootNode (Some (TFunc sg))]]
        end).
Proof.
  rewrite Compare_some. cbv zeta. rewrite ty_eqb_refl. unfold compareKind, compareFunc. simpl.
  destruct c1, c2; reflexivity.
Qed.

(** X13: [Compare] on two [time.Time] values returns no mismatch when [Equal]
    holds and one Value mismatch at the root otherwise; the fields are not
    compared. *)
Theorem Compare_time structs teq conf fuel h x y :
  returned (Compare structs teq conf (S fuel) h (Some (TStruct "time.Time", x)) (Some (TStruct "time.Time", y))) =
  Some (if teq x y then [] else [ValueError x y [RootNode (Some (TStruct "time.Time"))]]).
Proof.
  rewrite Compare_some. cbv zeta. rewrite ty_eqb_refl. unfold compareKind. simpl. unfold compareStruct. simpl.
  destruct (teq x y); reflexivity.
Qed.

(** X14: [Compare(nil, nil)] returns no mismatch; [Compare(nil, w)] and
    [Compare(g, nil)] return one Validity mismatch, at the root typed with
    the type of [want] (no type when [want] is nil). *)
Theorem Compare_nil_args structs teq conf fuel h g w :
  returned (Compare structs teq conf (S fuel) h None None) = Some [] /\
  returned (Compare structs teq conf (S fuel) h None (Some w)) =
    Some [ValidityError None (ValueOf (Some w)) [RootNode (Some (fst w))]] /\
  returned (Compare structs teq conf (S fuel) h (Some g) None) =
    Some [ValidityError (ValueOf (Some g)) None [RootNode None]].
Proof.
  destruct g as [tg xg], w as [tw xw]. repeat split; reflexivity.
Qed.

(** X15: [Compare] on two non-nil values of different types returns exactly
    one Type mismatch at the root. *)
Theorem Compare_type_mismatch structs teq conf fuel h t x t' y :
  t <> t' ->
  returned (Compare structs teq conf (S fuel) h (Some (t, x)) (Some (t', y))) =
  Some [TypeError (RV t x None false) (RV t' y None false) [RootNode (Some t')]].
Proof.
  intros Ht. rewrite Compare_some. cbv zeta. rewrite ty_eqb_false by exact Ht. reflexivity.
Qed.

(** X16: Two slices or two maps of one type of which exactly one is nil:
    [Compare] returns exactly one Nil mismatch at the root. *)
Theorem Compare_nil_mismatch structs teq conf fuel h t x y :
  ((exists e hx hy, t = TSlice e /\ x = VSlice hx /\ y = VSlice hy) \/
   (exists k e mx my, t = TMap k e /\ x = VMap mx /\ y = VMap my)) ->
  IsNil x <> IsNil y ->
  returned (Compare structs teq conf (S fuel) h (Some (t, x)) (Some (t, y))) =
  Some [NilError (Some (RV t x None false)) (Some (RV t y None false)) [RootNode (Some t)]].
Proof.
  intros Hs Hn. rewrite Compare_some. cbv zeta. rewrite ty_eqb_refl. unfold compareKind.
  destruct Hs as [(e & hx & hy & -> & -> & ->)|(k & e & mx & my & -> & -> & ->)];
    simpl.
  - unfold compareSlice. simpl in *.
    destruct hx as [[[a o] n]|], hy as [[[a' o'] n']|]; simpl in *; try congruence; reflexivity.
  - unfold compareMap. simpl in *.
    destruct mx, my; simpl in *; try congruence; reflexivity.
Qed.

(** X17: A nil pointer against a non-nil pointer to a loadable value, in either
    order: [Compare] returns one Validity mismatch at the root, between the
    invalid [Elem] of the nil pointer and the pointee. *)
Theorem Compare_nil_pointer structs teq conf fuel h t l v :
  load h l = Some v ->
  returned (Compare structs teq conf (S (S fuel)) h (Some (TPtr t, VPtr None)) (Some (TPtr t, VPtr (Some l)))) =
    Some [ValidityError None (Some (RV t v (Some l) false)) [RootNode (Some (TPtr t))]] /\
  returned (Compare structs teq conf (S (S fuel)) h (Some (TPtr t, VPtr (Some l))) (Some (TPtr t, VPtr None))) =
    Some [ValidityError (Some (RV t v (Some l) false)) None [RootNode (Some (TPtr t))]].
Proof.
  intros Hl. split; rewrite Compare_some; cbv zeta; rewrite ty_eqb_refl;
    unfold compareKind, comparePointer; simpl; unfold bind, get_heap; simpl; unfold Elem; simpl;
    rewrite Hl; reflexivity.
Qed.

(** X18: Two distinct non-nil maps of one type with different numbers of
    entries: [Compare] returns exactly one Length mismatch at the root and
    compares no entry. *)
Theorem Compare_map_len_mismatch structs teq conf fuel h k e m1 m2 :
  m1 <> m2 ->
  length (map_entries h (VMap (Some m1))) <> length (map_entries h (VMap (Some m2))) ->
  returned (Compare structs teq conf (S fuel) h (Some (TMap k e, VMap (Some m1))) (Some (TMap k e, VMap (Some m2)))) =
  Some [LenError (RV (TMap k e) (VMap (Some m1)) None false) (RV (TMap k e) (VMap (Some m2)) None false)
          [RootNode (Some (TMap k e))]].
Proof.
  intros Hm Hlen. rewrite Compare_some. cbv zeta. rewrite ty_eqb_refl.
  unfold compareKind, compareMap. simpl.
  replace (loc_eqb (m1, []) (m2, [])) with false
    by (symmetry; apply Bool.not_true_iff_false; rewrite loc_eqb_eq; congruence).
  unfold bind, get_heap. cbv beta iota.
  replace (Len h _ =? Len h _) with false; [reflexivity|].
  symmetry. apply Nat.eqb_neq. exact Hlen.
Qed.

(** X19: A step on two pointers with the same address, or on the same map on
    both sides, finishes without a mismatch record and leaves the heap as
    it is. *)
Theorem compare_same_reference structs teq conf fuel p s :
  (forall t l ad1 ad2 ro1 ro2, exists s',
     compare structs teq conf (S fuel)
       (Some (RV (TPtr t) (VPtr l) ad1 ro1)) (Some (RV (TPtr t) (VPtr l) ad2 ro2)) p s = Ok tt s'
     /\ errs s' = errs s /\ sheap s' = sheap s) /\
  (forall k e m ad1 ad2 ro1 ro2, exists s',
     compare structs teq conf (S fuel)
       (Some (RV (TMap k e) (VMap m) ad1 ro1)) (Some (RV (TMap k e) (VMap m) ad2 ro2)) p s = Ok tt s'
     /\ errs s' = errs s /\ sheap s' = sheap s).
Proof.
  split; intros; rewrite compare_S; simpl; rewrite ty_eqb_refl;
    (destruct (repeat_visit _ _ _); [eauto|]);
    (destruct (zero s); [rewrite compareZero_spec; simpl|]).
  - destruct l; simpl; rewrite app_nil_r; eauto.
  - unfold compareKind, comparePointer. simpl. replace (opt_eqb loc_eqb l l) with true; [unfold ret; eauto|].
    destruct l; simpl; [rewrite loc_eqb_refl|]; reflexivity.
  - destruct m; simpl; rewrite app_nil_r; eauto.
  - unfold compareKind, compareMap. simpl.
    destruct m; simpl; [rewrite loc_eqb_refl|]; unfold ret; eauto.
Qed.

(** X21: When [ObserveFieldTag] is set and every field of a struct type (other
    than [time.Time]) has the tag value "-" under it, [Compare] on two
    values of that type returns no mismatch. *)
Theorem Compare_struct_all_ignored structs teq conf fuel h n x y :
  n <> "time.Time"%string -> ObserveFieldTag conf <> ""%string ->
  Forall (fun f => tag_get (ftag f) (ObserveFieldTag conf) = "-"%string) (structs n) ->
  returned (Compare structs teq conf (S fuel) h (Some (TStruct n, x)) (Some (TStruct n, y))) = Some [].
Proof.
  intros Hn Ht Hf. rewrite Compare_some. cbv zeta. rewrite ty_eqb_refl.
  unfold compareKind, compareStruct, structIsTime. simpl.
  destruct (String.eqb_spec n "time.Time") as [|_]; [contradiction|]. simpl.
  rewrite for_noop; [reflexivity|].
  intros i Hi. destruct (nth_error (structs n) i) as [f|] eqn:E; [|reflexivity].
  apply nth_error_In in E. rewrite Forall_forall in Hf. rewrite (Hf f E).
  destruct (ObserveFieldTag conf) as [|c tg]; [contradiction|]. reflexivity.
Qed.

(** X22: Every record [Compare] returns has a path that starts with the root
    node typed with the type of [want]. *)
Theorem Compare_errors_under_root structs teq conf fuel h got want es s :
  Compare structs teq conf fuel h got want = Ok es s ->
  Forall (fun e => exists r, err_path e = RootNode (option_map fst want) :: r) es.
Proof.
  unfold Compare. intros E.
  destruct (compare structs teq conf fuel (ValueOf got) (ValueOf want) [RootNode (option_map fst want)]
              (mkstate h [] [] false)) as [[] s1| | |] eqn:C; try discriminate.
  injection E as <- _.
  destruct (grows_compare structs teq conf fuel _ _ _ _ _ _ C) as (_ & _ & new & Hnew & Hp).
  simpl in Hnew. rewrite Hnew. revert Hp. apply Forall_impl.
  intros e [r Hr]. exists r. exact Hr.
Qed.

(** X23: [Compare] changes no allocation of the heap but channel buffers, and
    leaves a heap without channels unchanged. *)
Theorem Compare_heap structs teq conf fuel h got want es s :
  Compare structs teq conf fuel h got want = Ok es s ->
  heap_le h (sheap s) /\ (no_chan h -> sheap s = h).
Proof.
  unfold Compare. intros E.
  destruct (compare structs teq conf fuel (ValueOf got) (ValueOf want) [RootNode (option_map fst want)]
              (mkstate h [] [] false)) as [[] s1| | |] eqn:C; try discriminate.
  injection E as _ <-.
  destruct (grows_compare structs teq conf fuel _ _ _ _ _ _ C) as (H1 & H2 & _).
  split; [exact H1|exact H2].
Qed.

Lemma Compare_basic_values_witness :
  In TInt [TBool; TInt; TUint; TFloat64] /\
  returned (Compare (fun _ => []) (fun _ _ => true) (mkConfig false ""%string) 1 []
              (Some (TInt, VInt 1)) (Some (TInt, VInt 2))) =
  Some (if go_eq (VInt 1) (VInt 2) then [] else [ValueError (VInt 1) (VInt 2) [RootNode (Some TInt)]]).
Proof.
  split; [simpl; auto|].
  apply (Compare_basic_values (fun _ => []) (fun _ _ => true) (mkConfig false ""%string) 0 [] TInt (VInt 1) (VInt 2)).
  simpl; auto.
Defined.

Lemma Compare_type_mismatch_witness :
  TInt <> TBool /\
  returned (Compare (fun _ => []) (fun _ _ => true) (mkConfig false ""%string) 1 []
              (Some (TInt, VInt 1)) (Some (TBool, VBool true))) =
  Some [TypeError (RV TInt (VInt 1) None false) (RV TBool (VBool true) None false) [RootNode (Some TBool)]].
Proof.
  split; [discriminate|].
  apply (Compare_type_mismatch (fun _ => []) (fun _ _ => true) (mkConfig false ""%string) 0 []
           TInt (VInt 1) TBool (VBool true)).
  discriminate.
Defined.

Lemma Compare_nil_mismatch_witness :
  IsNil (VSlice None) <> IsNil (VSlice (Some (0, 0, 1)%nat)) /\
  returned (Compare (fun _ => []) (fun _ _ => true) (mkConfig false ""%string) 1 [(0%nat, BVals [VInt 1])]
              (Some (TSlice TInt, VSlice None)) (Some (TSlice TInt, VSlice (Some (0, 0, 1)%nat)))) =
  Some [NilError (Some (RV (TSlice TInt) (VSlice None) None false))
                 (Some (RV (TSlice TInt) (VSlice (Some (0, 0, 1)%nat)) None false)) [RootNode (Some (TSlice TInt))]].
Proof.
  split; [vm_compute; discriminate|].
  apply (Compare_nil_mismatch (fun _ => []) (fun _ _ => true) (mkConfig false ""%string) 0 [(0%nat, BVals [VInt 1])]
           (TSlice TInt) (VSlice None) (VSlice (Some (0, 0, 1)%nat))).
  - left. do 3 eexists. split; [reflexivity|]. split; reflexivity.
  - vm_compute; discriminate.
Defined.

Lemma Compare_nil_pointer_witness :
  load [(0%nat, BVals [VInt 7])] (0%nat, [0%nat]) = Some (VInt 7) /\
  returned (Compare (fun _ => []) (fun _ _ => true) (mkConfig false ""%string) 2 [(0%nat, BVals [VInt 7])]
              (Some (TPtr TInt, VPtr None)) (Some (TPtr TInt, VPtr (Some (0%nat, [0%nat]))))) =
    Some [ValidityError None (Some (RV TInt (VInt 7) (Some (0%nat, [0%nat])) false)) [RootNode (Some (TPtr TInt))]] /\
  returned (Compare (fun _ => []) (fun _ _ => true) (mkConfig false ""%string) 2 [(0%nat, BVals [VInt 7])]
              (Some (TPtr TInt, VPtr (Some (0%nat, [0%nat])))) (Some (TPtr TInt, VPtr None))) =
    Some [ValidityError (Some (RV TInt (VInt 7) (Some (0%nat, [0%nat])) false)) None [RootNode (Some (TPtr TInt))]].
Proof.
  split; [reflexivity|].
  apply (Compare_nil_pointer (fun _ => []) (fun _ _ => true) (mkConfig false ""%string) 0 [(0%nat, BVals [VInt 7])]
           TInt (0%nat, [0%nat]) (VInt 7)).
  reflexivity.
Defined.

Lemma Compare_map_len_mismatch_witness :
  (0 <> 1)%nat /\
  length (map_entries [(0%nat, BMap [(VString "a", VInt 1)]); (1%nat, BMap [])] (VMap (Some 0%nat))) <>
  length (map_entries [(0%nat, BMap [(VString "a", VInt 1)]); (1%nat, BMap [])] (VMap (Some 1%nat))) /\
  returned (Compare (fun _ => []) (fun _ _ => true) (mkConfig false ""%string) 1
              [(0%nat, BMap [(VString "a", VInt 1)]); (1%nat, BMap [])]
              (Some (TMap TString TInt, VMap (Some 0%nat))) (Some (TMap TString TInt, VMap (Some 1%nat)))) =
  Some [LenError (RV (TMap TString TInt) (VMap (Some 0%nat)) None false)
                 (RV (TMap TString TInt) (VMap (Some 1%nat)) None false) [RootNode (Some (TMap TString TInt))]].
Proof.
  split; [discriminate|]. split; [simpl; discriminate|].
  apply (Compare_map_len_mismatch (fun _ => []) (fun _ _ => true) (mkConfig false ""%string) 0
           [(0%nat, BMap [(VString "a", VInt 1)]); (1%nat, BMap [])] TString TInt 0%nat 1%nat).
  - discriminate.
  - simpl; discriminate.
Defined.

Lemma Compare_struct_all_ignored_witness :
  "S"%string <> "time.Time"%string /\ ObserveFieldTag (mkConfig false "cmp"%string) <> ""%string /\
  Forall (fun f => tag_get (ftag f) (ObserveFieldTag (mkConfig false "cmp"%string)) = "-"%string)
    [mkfield "X" [("cmp", "-")]%string TInt] /\
  returned (Compare (fun _ => [mkfield "X" [("cmp", "-")]%string TInt]) (fun _ _ => true) (mkConfig false "cmp"%string) 1 []
              (Some (TStruct "S", VStruct [VInt 1])) (Some (TStruct "S", VStruct [VInt 2]))) = Some [].
Proof.
  split; [discriminate|]. split; [discriminate|]. split; [repeat constructor|].
  apply (Compare_struct_all_ignored (fun _ => [mkfield "X" [("cmp", "-")]%string TInt]) (fun _ _ => true)
           (mkConfig false "cmp"%string) 0 [] "S"%string (VStruct [VInt 1]) (VStruct [VInt 2])).
  - discriminate.
  - discriminate.
  - repeat constructor.
Defined.

Lemma Compare_errors_under_root_witness :
  Compare (fun _ => []) (fun _ _ => true) (mkConfig false ""%string) 5 [] (Some (TInt, VInt 1)) (Some (TInt, VInt 2)) =
    Ok [ValueError (VInt 1) (VInt 2) [RootNode (Some TInt)]]
       (mkstate [] [ValueError (VInt 1) (VInt 2) [RootNode (Some TInt)]] [] false) /\
  Forall (fun e => exists r, err_path e = RootNode (option_map fst (Some (TInt, VInt 2))) :: r)
    [ValueError (VInt 1) (VInt 2) [RootNode (Some TInt)]].
Proof.
  split; [vm_compute; reflexivity|].
  apply (Compare_errors_under_root (fun _ => []) (fun _ _ => true) (mkConfig false ""%string) 5 []
           (Some (TInt, VInt 1)) (Some (TInt, VInt 2)) _ (mkstate [] [ValueError (VInt 1) (VInt 2) [RootNode (Some TInt)]] [] false)).
  vm_compute; reflexivity.
Defined.

Lemma Compare_heap_witness :
  Compare (fun _ => []) (fun _ _ => true) (mkConfig false ""%string) 5 [] (Some (TInt, VInt 1)) (Some (TInt, VInt 2)) =
    Ok [ValueError (VInt 1) (VInt 2) [RootNode (Some TInt)]]
       (mkstate [] [ValueError (VInt 1) (VInt 2) [RootNode (Some TInt)]] [] false) /\
  heap_le [] (sheap (mkstate [] [ValueError (VInt 1) (VInt 2) [RootNode (Some TInt)]] [] false)) /\
  (no_chan [] -> sheap (mkstate [] [ValueError (VInt 1) (VInt 2) [RootNode (Some TInt)]] [] false) = []).
Proof.
  split; [vm_compute; reflexivity|].
  apply (Compare_heap (fun _ => []) (fun _ _ => true) (mkConfig false ""%string) 5 []
           (Some (TInt, VInt 1)) (Some (TInt, VInt 2)) [ValueError (VInt 1) (VInt 2) [RootNode (Some TInt)]]
           (mkstate [] [ValueError (VInt 1) (VInt 2) [RootNode (Some TInt)]] [] false)).
  vm_compute; reflexivity.
Defined.

End Extras.

Module StrExtras.
Import Go Reflect Cmp Comparator Invariants Facts GoStrings StringDiff ExtraFacts StrFacts.
Local Open Scope string_scope.
Local Open Scope Z_scope.

(** X1: When [sdiff(a, b)] returns a diff [d]: [a <> b],
    [0 <= d.start <= d.end <= len(a)] and [d.start <= len(b)];
    [d.length()] is 0 exactly when [b] extends [a], and then
    [d.start = len(a)]. *)
Theorem sdiff_result a b d :
  sdiff a b = Some d ->
  a <> b /\
  0 <= start d <= end_ d /\ end_ d <= Z.of_nat (String.length a) /\
  start d <= Z.of_nat (String.length b) /\
  (diff_length d = 0 <-> exists rest, b = a ++ rest) /\
  (forall rest, b = a ++ rest -> start d = Z.of_nat (String.length a)).
Proof.
  intros Hd. pose proof (sdiff_bounds _ _ _ Hd) as (H0 & H1 & H3).
  pose proof (sdiff_empty_prefix _ _ _ Hd) as He.
  split; [intros ->; unfold sdiff in Hd; rewrite String.eqb_refl in Hd; discriminate|].
  split; [lia|]. split; [lia|]. split; [lia|].
  split; [unfold diff_length; rewrite <- He; lia|].
  intros rest Hr. assert (Heq : start d = end_ d) by (apply He; eauto).
  destruct H3 as [(_ & H4 & _)|H3]; [|lia]. rewrite H4. f_equal.
  subst b. rewrite length_app. lia.
Qed.

(** X2: [newStringError] never panics, and for equal strings both fields are
    the plain colored quotations of [got] and [want]. *)
Theorem newStringError_total got want :
  exists g w, newStringError got want = Some (g, w) /\
  (got = want -> g = quoted gotColor got /\ w = quoted wantColor want).
Proof.
  destruct (sdiff got want) as [d|] eqn:Hd.
  - rewrite (newStringError_shape _ _ _ Hd). do 2 eexists. split; [reflexivity|].
    intros ->. unfold sdiff in Hd. rewrite String.eqb_refl in Hd. discriminate.
  - unfold newStringError. rewrite Hd. do 2 eexists. split; [reflexivity|]. auto.
Qed.

(** X3: For [got <> want], the got field is [got = s1 + s2 + s3] with [s2]
    marked, [len(s1) = d.start] and [len(s1 + s2) = d.end] for
    [d = sdiff(got, want)]; the want field is the plain quotation when
    [len(want) <= d.start], and otherwise [want = w1 + w2 + w3] with [w2]
    marked, [len(w1) = len(s1)] and [len(w1 + w2) = min(d.end, len(want))]. *)
Theorem newStringError_marks got want :
  got <> want ->
  exists d g w, sdiff got want = Some d /\ newStringError got want = Some (g, w) /\
  exists s1 s2 s3, got = s1 ++ s2 ++ s3 /\
    Z.of_nat (String.length s1) = start d /\ Z.of_nat (String.length (s1 ++ s2)) = end_ d /\
    g = marked gotColor diffGotColor diffGotStopColor s1 s2 s3 /\
    ((String.length want <= String.length s1)%nat /\ w = quoted wantColor want \/
     (String.length s1 < String.length want)%nat /\
     exists w1 w2 w3, want = w1 ++ w2 ++ w3 /\ String.length w1 = String.length s1 /\
       String.length (w1 ++ w2) = Nat.min (String.length (s1 ++ s2)) (String.length want) /\
       w = marked wantColor diffWantColor diffWantStopColor w1 w2 w3).
Proof.
  intros Hne. destruct (sdiff_some _ _ Hne) as [d Hd].
  pose proof (sdiff_bounds _ _ _ Hd) as (H0 & H1 & H3).
  assert (Hsw : start d <= Z.of_nat (String.length want)) by lia.
  rewrite (newStringError_shape _ _ _ Hd). cbv zeta.
  set (ds := Z.to_nat (start d)). set (de := Z.to_nat (end_ d)).
  assert (Hds : (ds <= de <= String.length got)%nat) by (unfold ds, de; lia).
  do 3 eexists. split; [exact Hd|]. split; [reflexivity|].
  exists (substring 0 ds got), (substring ds (de - ds) got), (substring de (String.length got - de) got).
  split; [apply split3; lia|].
  rewrite length_app, !length_substring by lia.
  split; [unfold ds; lia|]. split; [unfold ds, de; lia|]. split; [reflexivity|].
  destruct (Z.of_nat (String.length want) >? start d) eqn:E.
  - apply Z.gtb_lt in E. right. split; [unfold ds; lia|].
    set (m := Nat.min de (String.length want)).
    exists (substring 0 ds want), (substring ds (m - ds) want), (substring m (String.length want - m) want).
    split; [apply split3; unfold m, ds; lia|].
    rewrite length_app, !length_substring by (unfold m, ds; lia).
    split; [reflexivity|]. split; [unfold m, ds; lia|]. reflexivity.
  - rewrite Z.gtb_ltb in E. apply Z.ltb_ge in E. left. split; [unfold ds; lia|reflexivity].
Qed.

(** X4: For [got <> want], the want field stays the plain quotation of [want]
    exactly when [got] starts with [want]. *)
Theorem newStringError_plain_want got want :
  got <> want ->
  ((exists g, newStringError got want = Some (g, quoted wantColor want)) <->
   exists rest, got = want ++ rest).
Proof.
  intros Hne. destruct (sdiff_some _ _ Hne) as [d Hd].
  pose proof (sdiff_bounds _ _ _ Hd) as (H0 & H1 & _).
  rewrite <- (sdiff_want_prefix _ _ _ Hd).
  rewrite (newStringError_shape _ _ _ Hd). cbv zeta.
  destruct (Z.of_nat (String.length want) >? start d) eqn:E.
  - apply Z.gtb_lt in E. split; [|lia]. intros [g Hw]. exfalso.
    apply (f_equal (fun o => match o with Some (_, w) => String.length w | None => 0%nat end)) in Hw.
    cbv beta iota in Hw.
    set (ds := Z.to_nat (start d)) in Hw. set (m := Nat.min (Z.to_nat (end_ d)) (String.length want)) in Hw.
    unfold marked, quoted in Hw.
    rewrite !length_app in Hw. rewrite !length_substring in Hw by (unfold ds, m; lia).
    simpl in Hw. lia.
  - rewrite Z.gtb_ltb in E. apply Z.ltb_ge in E. split; [lia|]. intros _. eauto.
Qed.

(** X5: For [0 <= max] (and no [int] overflow), [strim(s, pos, max)] never
    panics: it returns [s] when [len(s) <= max], and otherwise a contiguous
    part of [s] of [2 * (max / 2)] bytes when [pos > max / 2], of [max]
    bytes otherwise. *)
Theorem strim_window s pos max :
  0 <= max -> max < 2 ^ 62 -> pos < 2 ^ 62 ->
  exists w, strim s pos max = Some w /\
    (Z.of_nat (String.length s) <= max -> w = s) /\
    (max < Z.of_nat (String.length s) ->
     exists lh, (lh + String.length w <= String.length s)%nat /\ w = substring lh (String.length w) s /\
       Z.of_nat (String.length w) = (if pos >? Z.quot max 2 then 2 * Z.quot max 2 else max)).
Proof.
  intros H0 H1 H2.
  destruct (Z_lt_le_dec max (Z.of_nat (String.length s))) as [Hlt|Hle].
  - pose proof (strim_spec s pos max ltac:(lia) H1 H2) as (Hl & Hk & Hk0 & E). cbv zeta in *.
    eexists. split; [exact E|]. split; [lia|]. intros _.
    rewrite Z.quot_div_nonneg by lia.
    set (k := if pos >? max / 2 then 2 * (max / 2) else max) in *.
    set (lh := if pos >? max / 2 then _ else 0) in *.
    rewrite length_substring by lia.
    exists (Z.to_nat lh). split; [lia|]. split; [reflexivity|]. lia.
  - exists s. unfold strim. replace (Z.of_nat (String.length s) <=? max) with true by (symmetry; apply Z.leb_le; lia).
    split; [reflexivity|]. split; [reflexivity|]. lia.
Qed.

(** X6: For [2 <= max < len(s)] and [0 <= pos < len(s)] (and no [int]
    overflow), the part of [s] that [strim] returns contains the byte at
    [pos]. *)
Theorem strim_keeps_pos s pos max :
  2 <= max < Z.of_nat (String.length s) -> 0 <= pos < Z.of_nat (String.length s) ->
  max < 2 ^ 62 -> pos < 2 ^ 62 ->
  exists w lh, strim s pos max = Some w /\ w = substring lh (String.length w) s /\
    (lh <= Z.to_nat pos < lh + String.length w)%nat.
Proof.
  intros Hm Hp H1 H2.
  pose proof (strim_spec s pos max ltac:(lia) H1 H2) as (Hl & Hk & Hk0 & E). cbv zeta in *.
  assert (Hh : 1 <= max / 2 /\ 2 * (max / 2) <= max) by (split; [apply Z.div_le_lower_bound; lia|apply Z.mul_div_le; lia]).
  set (k := if pos >? max / 2 then 2 * (max / 2) else max) in *.
  set (lh := if pos >? max / 2 then _ else 0) in *.
  exists (substring (Z.to_nat lh) (Z.to_nat k) s), (Z.to_nat lh).
  rewrite length_substring by lia. split; [exact E|]. split; [reflexivity|].
  unfold k, lh in *. destruct (pos >? max / 2) eqn:Ep.
  - apply Z.gtb_lt in Ep. lia.
  - rewrite Z.gtb_ltb in Ep. apply Z.ltb_ge in Ep. lia.
Qed.

(** X7: The text of [errorList.Error()] never ends in a newline. *)
Theorem errorList_Error_no_trailing_newline msgs t :
  errorList_Error msgs <> t ++ String nl EmptyString.
Proof. apply TrimRight_nl_no_nl. Qed.

(** X8: When the last message is not empty and does not end in a newline,
    [errorList.Error()] is the messages joined by newlines. *)
Theorem errorList_Error_join msgs :
  last (list_ascii_of_string (last msgs EmptyString)) nl <> nl ->
  errorList_Error msgs = String.concat (String nl EmptyString) msgs.
Proof.
  intros H. assert (Hne : msgs <> []) by (intros ->; apply H; reflexivity).
  unfold errorList_Error. rewrite fold_concat by exact Hne.
  apply TrimRight_nl_one.
  destruct (concat_last msgs Hne) as [u Hu]. rewrite Hu, list_ascii_app.
  destruct (list_ascii_of_string (last msgs EmptyString)) eqn:E; [contradiction|].
  rewrite last_app_r by discriminate. exact H.
Qed.

Lemma sdiff_result_witness :
  sdiff "abc" "adc" = Some (mkdiff 1 2) /\
  "abc" <> "adc" /\
  0 <= start (mkdiff 1 2) <= end_ (mkdiff 1 2) /\ end_ (mkdiff 1 2) <= Z.of_nat (String.length "abc") /\
  start (mkdiff 1 2) <= Z.of_nat (String.length "adc") /\
  (diff_length (mkdiff 1 2) = 0 <-> exists rest, "adc" = "abc" ++ rest) /\
  (forall rest, "adc" = "abc" ++ rest -> start (mkdiff 1 2) = Z.of_nat (String.length "abc")).
Proof.
  split; [vm_compute; reflexivity|].
  apply (sdiff_result "abc" "adc" (mkdiff 1 2)). vm_compute; reflexivity.
Defined.

Lemma newStringError_marks_witness :
  "abc" <> "adc" /\
  exists d g w, sdiff "abc" "adc" = Some d /\ newStringError "abc" "adc" = Some (g, w) /\
  exists s1 s2 s3, "abc" = s1 ++ s2 ++ s3 /\
    Z.of_nat (String.length s1) = start d /\ Z.of_nat (String.length (s1 ++ s2)) = end_ d /\
    g = marked gotColor diffGotColor diffGotStopColor s1 s2 s3 /\
    ((String.length "adc" <= String.length s1)%nat /\ w = quoted wantColor "adc" \/
     (String.length s1 < String.length "adc")%nat /\
     exists w1 w2 w3, "adc" = w1 ++ w2 ++ w3 /\ String.length w1 = String.length s1 /\
       String.length (w1 ++ w2) = Nat.min (String.length (s1 ++ s2)) (String.length "adc") /\
       w = marked wantColor diffWantColor diffWantStopColor w1 w2 w3).
Proof.
  split; [discriminate|].
  apply (newStringError_marks "abc" "adc"). discriminate.
Defined.

Lemma newStringError_plain_want_witness :
  "abcd" <> "ab" /\
  ((exists g, newStringError "abcd" "ab" = Some (g, quoted wantColor "ab")) <->
   exists rest, "abcd" = "ab" ++ rest).
Proof.
  split; [discriminate|].
  apply (newStringError_plain_want "abcd" "ab"). discriminate.
Defined.

Lemma strim_window_witness :
  0 <= 5 /\ 5 < 2 ^ 62 /\ 6 < 2 ^ 62 /\
  exists w, strim "lorem ipsum" 6 5 = Some w /\
    (Z.of_nat (String.length "lorem ipsum") <= 5 -> w = "lorem ipsum") /\
    (5 < Z.of_nat (String.length "lorem ipsum") ->
     exists lh, (lh + String.length w <= String.length "lorem ipsum")%nat /\
       w = substring lh (String.length w) "lorem ipsum" /\
       Z.of_nat (String.length w) = (if 6 >? Z.quot 5 2 then 2 * Z.quot 5 2 else 5)).
Proof.
  split; [lia|]. split; [lia|]. split; [lia|].
  apply (strim_window "lorem ipsum" 6 5); lia.
Defined.

Lemma strim_keeps_pos_witness :
  2 <= 5 < Z.of_nat (String.length "lorem ipsum") /\ 0 <= 6 < Z.of_nat (String.length "lorem ipsum") /\
  5 < 2 ^ 62 /\ 6 < 2 ^ 62 /\
  exists w lh, strim "lorem ipsum" 6 5 = Some w /\ w = substring lh (String.length w) "lorem ipsum" /\
    (lh <= Z.to_nat 6 < lh + String.length w)%nat.
Proof.
  split; [simpl; lia|]. split; [simpl; lia|]. split; [lia|]. split; [lia|].
  apply (strim_keeps_pos "lorem ipsum" 6 5); simpl; lia.
Defined.

Lemma errorList_Error_join_witness :
  last (list_ascii_of_string (last ["a"; "b"] EmptyString)) nl <> nl /\
  errorList_Error ["a"; "b"] = String.concat (String nl EmptyString) ["a"; "b"].
Proof.
  split; [vm_compute; discriminate|].
  apply (errorList_Error_join ["a"; "b"]). vm_compute; discriminate.
Defined.

End StrExtras.

Module ArrExtras.
Import Go Reflect Cmp Comparator Invariants Matching Facts ArrayDefs ArrayFacts CompareFacts.

(** X24: With [IgnoreArrayOrder], [Compare] on two [[n]int] arrays returns no
    mismatch exactly when one array is a permutation of the other. *)
Theorem Compare_ignore_order_perm structs teq conf fuel h n gs ws :
  IgnoreArrayOrder conf = true -> length gs = n -> length ws = n ->
  (returned (Compare structs teq conf (S (S fuel)) h
     (Some (TArray n TInt, VArray (map VInt gs))) (Some (TArray n TInt, VArray (map VInt ws)))) = Some []
   <-> Permutation gs ws).
Proof.
  intros Hc Hg Hw. rewrite Compare_some. cbv zeta. rewrite ty_eqb_refl.
  unfold compareKind, compareArray, compareArrayIgnoreOrder, bind at 1 2, get_heap.
  cbn [kind_of rtype rdata Len sheap]. rewrite Nat.eqb_refl, Hc. cbn [negb].
  destruct (match_loop_int structs teq conf fuel n gs ws [RootNode (Some (TArray n TInt))] n 0 (seq 0 n)
              (mkstate h [] [] false)) as (new & E & Hn).
  rewrite E. simpl.
  assert (Hin : forall j, In j (seq 0 n) -> (j < length gs)%nat).
  { intros j Hj. apply in_seq in Hj. lia. }
  pose proof (greedy_int_perm gs ws n 0 (seq 0 n) ltac:(lia) (length_seq _ _) Hin) as Hp.
  assert (E1 : map (fun j => nth j gs 0%Z) (seq 0 n) = gs) by (rewrite <- Hg; apply map_nth_seq_id).
  assert (E2 : map (fun j => nth j ws 0%Z) (seq 0 n) = ws) by (rewrite <- Hw; apply map_nth_seq_id).
  rewrite E1, E2 in Hp. rewrite <- Hp, <- Hn. split; [congruence|intros ->; reflexivity].
Qed.

Lemma Compare_ignore_order_perm_witness :
  IgnoreArrayOrder (mkConfig true ""%string) = true /\ length [1; 2]%Z = 2%nat /\ length [2; 1]%Z = 2%nat /\
  (returned (Compare (fun _ => []) (fun _ _ => true) (mkConfig true ""%string) 2 []
     (Some (TArray 2 TInt, VArray (map VInt [1; 2]%Z))) (Some (TArray 2 TInt, VArray (map VInt [2; 1]%Z)))) = Some []
   <-> Permutation [1; 2]%Z [2; 1]%Z).
Proof.
  split; [reflexivity|]. split; [reflexivity|]. split; [reflexivity|].
  apply (Compare_ignore_order_perm (fun _ => []) (fun _ _ => true) (mkConfig true ""%string) 0 [] 2 [1; 2]%Z [2; 1]%Z);
    reflexivity.
Defined.

End ArrExtras.
